(** * util-linux: libblkid low-level prober, blkid.conf reader, libmount
      table lookup -- a shallow embedding and its verified properties.

    The development follows three translation units:
    - [Config]: config.c (blkid.conf routines),
    - [Probe]:  probe.c  (low-level probing API),
    - [Tab]:    libmount/src/tab.c (mount table lookup).

    C integers are embedded as [Z]; the unsigned 64-bit arithmetic of probe.c
    is written with its wrap-around ([u64]).  Pointers into the prober's chain
    array are array positions, NULL is [None]. *)

From Stdlib Require Import ZArith List String Ascii Bool Lia.
From stdpp Require Import base list strings.

Local Open Scope Z_scope.

(* ===================================================================== *)
(** * config.c                                                            *)
(* ===================================================================== *)
Module Config.

(** Character constants used by the reader. *)
Definition NUL : ascii := "000"%char.
Definition LF  : ascii := "010"%char.
Definition CR  : ascii := "013"%char.
Definition TAB : ascii := "009"%char.
Definition SPC : ascii := " "%char.

Definition lit (s : string) : list ascii := list_ascii_of_string s.

(** ** The stdio stream

    A [FILE] is the unread rest of the file together with the end-of-file
    indicator that [feof] reports. *)
Record FILE := mkFILE { f_rest : list ascii; f_eof : bool }.

Definition feof (fd : FILE) : bool := f_eof fd.

(** glibc's BUFSIZ. *)
Definition BUFSIZ : nat := Eval cbv in (8 * 1024)%nat.

(** [fgets] stores at most [room] characters; it stops after a newline
    (which is stored) or at end of file (which raises the indicator). *)
Fixpoint fgets_chars (room : nat) (rest : list ascii)
  : list ascii * list ascii * bool :=
  match room with
  | O => ([], rest, false)
  | S room' =>
      match rest with
      | [] => ([], [], true)
      | c :: rest' =>
          if Ascii.eqb c LF then ([c], rest', false)
          else let '(l, r, e) := fgets_chars room' rest' in (c :: l, r, e)
      end
  end.

(** [fgets(buf, size, fd)]: [None] is the NULL return (nothing read); on
    success the result is the written part of [buf], terminator included.
    Bytes of [buf] behind the terminator are indeterminate. *)
Definition fgets (size : nat) (fd : FILE) : option (list ascii) * FILE :=
  let '(l, r, e) := fgets_chars (size - 1) (f_rest fd) in
  let fd' := mkFILE r (f_eof fd || e) in
  match l with
  | [] => (None, fd')
  | _ => (Some (l ++ [NUL]), fd')
  end.

(** ** C strings inside a buffer *)

(** The string that starts at [buf]: the characters before the first NUL. *)
Fixpoint cstr (buf : list ascii) : list ascii :=
  match buf with
  | [] => []
  | c :: buf' => if Ascii.eqb c NUL then [] else c :: cstr buf'
  end.

(** [strchr(buf, c)] as an index into [buf]; [c = NUL] finds the terminator. *)
Fixpoint strchr (buf : list ascii) (c : ascii) : option nat :=
  match buf with
  | [] => None
  | x :: buf' =>
      if Ascii.eqb x c then Some O
      else if Ascii.eqb x NUL then None
      else option_map S (strchr buf' c)
  end.

(** [*s] for [s = buf + i]; [None] when the byte was never written. *)
Definition deref (buf : list ascii) (i : nat) : option ascii := buf !! i.

(** The string at [buf + i]; [None] when [buf + i] lies behind everything
    that was written to [buf]. *)
Definition cstr_at (buf : list ascii) (i : nat) : option (list ascii) :=
  if decide (i < length buf)%nat then Some (cstr (drop i buf)) else None.

Definition tolower (c : ascii) : ascii :=
  let n := nat_of_ascii c in
  if (65 <=? n)%nat && (n <=? 90)%nat then ascii_of_nat (n + 32) else c.

Definition ascii_list_eqb (a b : list ascii) : bool :=
  bool_decide (a = b).

(** [strcasecmp(a, b) == 0] *)
Definition strcaseeq (a b : list ascii) : bool :=
  ascii_list_eqb (map tolower a) (map tolower b).

(** [strcmp(a, b) == 0] *)
Definition streq (a b : list ascii) : bool := ascii_list_eqb a b.

(** [strncmp(s, lit, n) == 0] where [n] is the length of the literal [p]
    and [s] is a C string (it holds no NUL). *)
Definition strneq (s p : list ascii) (n : nat) : bool :=
  ascii_list_eqb (take n s) (take n p).

(** ** struct blkid_config *)

Inductive blkid_eval := BLKID_EVAL_UDEV | BLKID_EVAL_SCAN.

(** [__BLKID_EVAL_LAST]: the number of evaluation methods, the size of
    [eval[]]. *)
Definition __BLKID_EVAL_LAST : Z := 2.

Definition TRUE : Z := 1.
Definition FALSE : Z := 0.

Record blkid_config := mkConf {
  eval : list blkid_eval;          (* eval[0 .. nevals-1] *)
  nevals : Z;
  uevent : Z;                      (* int: TRUE, FALSE, -1 = not set *)
  cachefile : option (list ascii);
  probeoff : option (list (list ascii));
  refcount : Z
}.

Definition set_uevent (v : Z) (c : blkid_config) : blkid_config :=
  mkConf (eval c) (nevals c) v (cachefile c) (probeoff c) (refcount c).
Definition set_cachefile (v : list ascii) (c : blkid_config) : blkid_config :=
  mkConf (eval c) (nevals c) (uevent c) (Some v) (probeoff c) (refcount c).
Definition set_probeoff (v : list (list ascii)) (c : blkid_config) : blkid_config :=
  mkConf (eval c) (nevals c) (uevent c) (cachefile c) (Some v) (refcount c).
Definition add_eval (e : blkid_eval) (c : blkid_config) : blkid_config :=
  mkConf (eval c ++ [e]) (nevals c + 1) (uevent c) (cachefile c) (probeoff c)
         (refcount c).

(** Result of a routine that walks a line buffer: either it returns, or it
    dereferences a byte of [buf] that nothing has written. *)
Inductive result :=
| Ret (rc : Z) (fd : FILE) (conf : blkid_config)
| Indeterminate.

Section Reader.

(** strv.c and the cache-file default live outside this translation unit. *)
Variable strv_split : list ascii -> list ascii -> list (list ascii).
Variable blkid_get_default_cache_filename : list ascii.

(** [parse_evaluate]: one comma-separated item per turn ([fuel] bounds the
    turns by the length of the string). *)
Fixpoint parse_evaluate (fuel : nat) (conf : blkid_config) (s : list ascii)
  : Z * blkid_config :=
  match fuel with
  | O => (0, conf)
  | S fuel' =>
      match s with
      | [] => (0, conf)
      | _ =>
          if nevals conf >=? __BLKID_EVAL_LAST then (-1, conf)
          else
            let sep := strchr s ","%char in
            let item := match sep with Some k => take k s | None => s end in
            let step (e : blkid_eval) :=
              let conf' := add_eval e conf in
              match sep with
              | Some k => parse_evaluate fuel' conf' (drop (S k) s)
              | None => (0, conf')
              end in
            if streq item (lit "udev") then step BLKID_EVAL_UDEV
            else if streq item (lit "scan") then step BLKID_EVAL_SCAN
            else (-1, conf)
      end
  end.

Definition parse_probeoff (conf : blkid_config) (s : list ascii)
  : Z * blkid_config :=
  (0, set_probeoff (strv_split s (lit ",")) conf).

(** Number of leading blanks and tabs, the skip-space loop of [parse_next]. *)
Fixpoint skip_blanks (buf : list ascii) : nat :=
  match buf with
  | [] => O
  | c :: buf' =>
      if Ascii.eqb c SPC || Ascii.eqb c TAB then S (skip_blanks buf') else O
  end.

(** The line preparation of [parse_next]: cut at the newline, drop one
    carriage return before it, skip blanks.  Returns the buffer and the
    index [s - buf], or [None] for the "missing newline" error. *)
Definition chop_line (buf : list ascii) (at_eof : bool)
  : option (list ascii * nat) :=
  let nl := match strchr buf LF with
            | Some k => Some k
            | None => if at_eof then strchr buf NUL else None
            end in
  match nl with
  | None => None
  | Some k =>
      let buf1 := <[k := NUL]> buf in
      let buf2 := match k with
                  | O => buf1
                  | S k' => if bool_decide (buf1 !! k' = Some CR)
                            then <[k' := NUL]> buf1 else buf1
                  end in
      Some (buf2, skip_blanks buf2)
  end.

(** The key dispatch of [parse_next], for [s = buf + i] at a line that is
    neither blank nor a comment. *)
Definition parse_key (buf : list ascii) (i : nat) (fd : FILE)
    (conf : blkid_config) : result :=
  let s := cstr (drop i buf) in
  if strneq s (lit "SEND_UEVENT=") 12 then
    (* s += 13 *)
    match cstr_at buf (i + 13) with
    | None => Indeterminate
    | Some v =>
        if negb (bool_decide (v = [])) && strcaseeq v (lit "yes")
        then Ret 0 fd (set_uevent TRUE conf)
        else if negb (bool_decide (v = []))
        then Ret 0 fd (set_uevent FALSE conf)
        else Ret 0 fd conf
    end
  else if strneq s (lit "CACHE_FILE=") 11 then
    let v := drop 11 s in
    if negb (bool_decide (v = [])) then Ret 0 fd (set_cachefile v conf)
    else Ret 0 fd conf
  else if strneq s (lit "EVALUATE=") 9 then
    let v := drop 9 s in
    if negb (bool_decide (v = [])) then
      let '(rc, conf') := parse_evaluate (S (length v)) conf v in
      if rc =? -1 then Ret (-1) fd conf' else Ret 0 fd conf'
    else Ret 0 fd conf
  else if strneq s (lit "PROBE_OFF=") 10 then
    let v := drop 10 s in
    if negb (bool_decide (v = [])) then
      let '(rc, conf') := parse_probeoff conf v in
      if rc =? -1 then Ret (-1) fd conf' else Ret 0 fd conf'
    else Ret 0 fd conf
  else Ret (-1) fd conf.

(** [parse_next]: the do-while reads lines until one is neither blank nor
    a comment.  Every turn consumes at least one character of the file, so
    [fuel] = 1 + number of unread characters is enough. *)
Fixpoint parse_next_loop (fuel : nat) (fd : FILE) (conf : blkid_config)
  : result :=
  match fuel with
  | O => Ret (-1) fd conf
  | S fuel' =>
      match fgets BUFSIZ fd with
      | (None, fd') => Ret (if feof fd' then 0 else -1) fd' conf
      | (Some buf, fd') =>
          match chop_line buf (feof fd') with
          | None => Ret (-1) fd' conf
          | Some (buf', i) =>
              match cstr (drop i buf') with
              | [] => parse_next_loop fuel' fd' conf
              | c :: _ =>
                  if Ascii.eqb c "#"%char then parse_next_loop fuel' fd' conf
                  else parse_key buf' i fd' conf
              end
          end
      end
  end.

Definition parse_next (fd : FILE) (conf : blkid_config) : result :=
  parse_next_loop (S (length (f_rest fd))) fd conf.

(** [calloc]ed configuration with the two fields [blkid_read_config] sets. *)
Definition conf_init : blkid_config :=
  mkConf [] 0 (-1) None None 1.

(** The [dflt:] tail of [blkid_read_config]. *)
Definition apply_defaults (conf : blkid_config) : blkid_config :=
  let c1 := if nevals conf =? 0
            then mkConf [BLKID_EVAL_UDEV; BLKID_EVAL_SCAN] 2 (uevent conf)
                        (cachefile conf) (probeoff conf) (refcount conf)
            else conf in
  let c2 := match cachefile c1 with
            | None => set_cachefile blkid_get_default_cache_filename c1
            | Some _ => c1
            end in
  if uevent c2 =? -1 then set_uevent TRUE c2 else c2.

(** [while (!feof(f)) if (parse_next(f, conf)) goto err;] *)
Fixpoint read_lines (fuel : nat) (fd : FILE) (conf : blkid_config)
  : option (option blkid_config) :=
  match fuel with
  | O => None
  | S fuel' =>
      if feof fd then Some (Some conf)
      else match parse_next fd conf with
           | Indeterminate => None
           | Ret rc fd' conf' =>
               if rc =? 0 then read_lines fuel' fd' conf'
               else Some None
           end
  end.

(** [blkid_read_config]; [file] is the content of the configuration file,
    [None] when it cannot be opened.  The outer [option] is [None] only for
    a run that reads an indeterminate byte; the inner one is the C result
    (NULL or the configuration). *)
Definition blkid_read_config (file : option (list ascii))
  : option (option blkid_config) :=
  match file with
  | None => Some (Some (apply_defaults conf_init))
  | Some content =>
      match read_lines (2 + length content) (mkFILE content false) conf_init with
      | Some (Some conf) => Some (Some (apply_defaults conf))
      | r => r
      end
  end.

End Reader.

(** A configuration file that consists of the one line [l]. *)
Definition one_line (l : string) : option (list ascii) := Some (lit l ++ [LF]).

(** ** Properties of the reader *)

(** C7, the [SEND_UEVENT=yes] half, on the code: the branch skips thirteen
    characters although the key has twelve, so the value is compared from
    its second character on; [yes] is read as [es], which is not [yes], and
    the flag becomes FALSE. *)
Theorem send_uevent_yes_reads_false :
  forall strv_split dflt,
    option_map (option_map uevent)
      (blkid_read_config strv_split dflt (one_line "SEND_UEVENT=yes"))
    = Some (Some FALSE).
Proof. intros. vm_compute. reflexivity. Qed.

(** The [SEND_UEVENT=no] half: the flag is FALSE. *)
Lemma send_uevent_no_reads_false :
  forall strv_split dflt,
    option_map (option_map uevent)
      (blkid_read_config strv_split dflt (one_line "SEND_UEVENT=no"))
    = Some (Some FALSE).
Proof. intros. vm_compute. reflexivity. Qed.

(** The skipped character is the first one of the value: any character in
    front of [yes] makes the flag TRUE. *)
Lemma send_uevent_xyes_reads_true :
  forall strv_split dflt,
    option_map (option_map uevent)
      (blkid_read_config strv_split dflt (one_line "SEND_UEVENT=xyes"))
    = Some (Some TRUE).
Proof. intros. vm_compute. reflexivity. Qed.

(** The sibling key skips exactly its own length. *)
Lemma cache_file_reads_whole_value :
  forall strv_split dflt,
    option_map (option_map cachefile)
      (blkid_read_config strv_split dflt (one_line "CACHE_FILE=/x"))
    = Some (Some (Some (lit "/x"))).
Proof. intros. vm_compute. reflexivity. Qed.

End Config.

(* ===================================================================== *)
(** * probe.c                                                             *)
(* ===================================================================== *)
Module Probe.

(** A lemma of a section depends on the section variables of its statement
    only. *)
#[local] Set Default Proof Using "Type*".

(** ** Machine integers *)

(** [uint64_t] arithmetic wraps. *)
Definition u64 (x : Z) : Z := x mod 2 ^ 64.

(** The cast [(int) x] of an unsigned value. *)
Definition to_int (x : Z) : Z := (x + 2 ^ 31) mod 2 ^ 32 - 2 ^ 31.

(** [size_t] is 64 bits wide (LP64). *)
Definition size_t (x : Z) : Z := x mod 2 ^ 64.

Definition ULONG_MAX : Z := 2 ^ 64 - 1.

(** errno values used by probe.c *)
Definition EINVAL : Z := 22.
Definition ENOMEM : Z := 12.

(** Return codes of the probing functions. *)
Definition BLKID_PROBE_OK : Z := 0.
Definition BLKID_PROBE_NONE : Z := 1.

(** ** Chains

    A pointer to [pr->chains[i]] is the position [i].  blkidP.h declares the
    chain identifiers in the order of [chains_drvs[]]. *)
Inductive chain_ix := BLKID_CHAIN_SUBLKS | BLKID_CHAIN_TOPLGY | BLKID_CHAIN_PARTS.

#[global] Instance chain_ix_eq_dec : EqDecision chain_ix.
Proof. solve_decision. Defined.

Definition BLKID_NCHAINS : Z := 3.

Definition ix_pos (i : chain_ix) : Z :=
  match i with
  | BLKID_CHAIN_SUBLKS => 0
  | BLKID_CHAIN_TOPLGY => 1
  | BLKID_CHAIN_PARTS => 2
  end.

(** [&pr->chains[n]] for an [n] inside the array. *)
Definition chain_at (n : Z) : option chain_ix :=
  if n =? 0 then Some BLKID_CHAIN_SUBLKS
  else if n =? 1 then Some BLKID_CHAIN_TOPLGY
  else if n =? 2 then Some BLKID_CHAIN_PARTS
  else None.

Definition all_chains : list chain_ix :=
  [BLKID_CHAIN_SUBLKS; BLKID_CHAIN_TOPLGY; BLKID_CHAIN_PARTS].

(** struct blkid_idmag *)
Record blkid_idmag := mkMag {
  magic : list Z;       (* the magic string, one byte per element *)
  len : Z;              (* unsigned int: length of magic *)
  kboff : Z;            (* long: kilobyte offset of superblock *)
  sboff : Z             (* unsigned int: byte offset within superblock *)
}.

(** struct blkid_idinfo; [magics] holds the entries in front of the
    terminating entry whose [magic] is NULL. *)
Record blkid_idinfo := mkIdinfo {
  id_name : string;
  magics : list blkid_idmag
}.

(** struct blkid_chaindrv, data members.  The function members [probe] and
    [safeprobe] are the section variables [driver_probe], [driver_safeprobe]
    below. *)
Record blkid_chaindrv := mkDrv {
  drv_id : Z;               (* const size_t id *)
  drv_name : string;
  dflt_flags : Z;
  dflt_enabled : bool;
  has_fltr : bool;
  idinfos : list blkid_idinfo;
  nidinfos : Z              (* size_t *)
}.

(** struct blkid_chain *)
Record blkid_chain := mkChain {
  driver : blkid_chaindrv;
  enabled : bool;
  flags : Z;
  binary : bool;
  idx : Z;                  (* int; -1 = before the first descriptor *)
  fltr : option (list bool)
}.

Definition chain_set_idx (v : Z) (c : blkid_chain) : blkid_chain :=
  mkChain (driver c) (enabled c) (flags c) (binary c) v (fltr c).
Definition chain_set_binary (v : bool) (c : blkid_chain) : blkid_chain :=
  mkChain (driver c) (enabled c) (flags c) v (idx c) (fltr c).
Definition chain_set_enabled (v : bool) (c : blkid_chain) : blkid_chain :=
  mkChain (driver c) v (flags c) (binary c) (idx c) (fltr c).

(** The array [struct blkid_chain chains[BLKID_NCHAINS]]. *)
Record chain_array := mkChains {
  ch_sublks : blkid_chain;
  ch_toplgy : blkid_chain;
  ch_parts : blkid_chain
}.

Definition chains_get (a : chain_array) (i : chain_ix) : blkid_chain :=
  match i with
  | BLKID_CHAIN_SUBLKS => ch_sublks a
  | BLKID_CHAIN_TOPLGY => ch_toplgy a
  | BLKID_CHAIN_PARTS => ch_parts a
  end.

Definition chains_upd (a : chain_array) (i : chain_ix)
    (f : blkid_chain -> blkid_chain) : chain_array :=
  match i with
  | BLKID_CHAIN_SUBLKS => mkChains (f (ch_sublks a)) (ch_toplgy a) (ch_parts a)
  | BLKID_CHAIN_TOPLGY => mkChains (ch_sublks a) (f (ch_toplgy a)) (ch_parts a)
  | BLKID_CHAIN_PARTS => mkChains (ch_sublks a) (ch_toplgy a) (f (ch_parts a))
  end.

(** struct blkid_prval: a value tagged with the chain that produced it. *)
Record blkid_prval := mkVal {
  v_name : string;
  v_data : list Z;
  v_len : Z;
  v_chain : option chain_ix
}.

(** struct blkid_bufinfo *)
Record blkid_bufinfo := mkBuf {
  bf_data : list Z;
  bf_off : Z;
  bf_len : Z
}.

(** The flag bits of [pr->flags], one field per [BLKID_FL_*] bit. *)
Record probe_flags := mkFlags {
  fl_private_fd : bool;
  fl_tiny_dev : bool;
  fl_cdrom_dev : bool;
  fl_noscan_dev : bool
}.

(** struct blkid_struct_probe (the configuration reference and the
    whole-disk prober play no part in the functions below). *)
Inductive blkid_struct_probe := mkProbe {
  fd : Z;
  off : Z;                    (* uint64_t: begin of the probing area *)
  size : Z;                   (* uint64_t: size of the probing area *)
  devno : Z;
  disk_devno : Z;
  blkssz : Z;
  mode : Z;                   (* st_mode *)
  pflags : probe_flags;
  prob_flags : Z;
  wipe_off : Z;
  wipe_size : Z;
  wipe_chain : option chain_ix;
  buffers : list blkid_bufinfo;
  chains : chain_array;
  cur_chain : option chain_ix;
  values : list blkid_prval;
  parent : option blkid_struct_probe;
  mmap_granularity : Z
}.

Abbreviation blkid_probe := blkid_struct_probe.

Definition set_cur_chain (v : option chain_ix) (p : blkid_probe) : blkid_probe :=
  mkProbe (fd p) (off p) (size p) (devno p) (disk_devno p) (blkssz p) (mode p)
    (pflags p) (prob_flags p) (wipe_off p) (wipe_size p) (wipe_chain p)
    (buffers p) (chains p) v (values p) (parent p) (mmap_granularity p).
Definition set_prob_flags (v : Z) (p : blkid_probe) : blkid_probe :=
  mkProbe (fd p) (off p) (size p) (devno p) (disk_devno p) (blkssz p) (mode p)
    (pflags p) v (wipe_off p) (wipe_size p) (wipe_chain p)
    (buffers p) (chains p) (cur_chain p) (values p) (parent p)
    (mmap_granularity p).
Definition set_wipe (o s : Z) (c : option chain_ix) (p : blkid_probe)
  : blkid_probe :=
  mkProbe (fd p) (off p) (size p) (devno p) (disk_devno p) (blkssz p) (mode p)
    (pflags p) (prob_flags p) o s c
    (buffers p) (chains p) (cur_chain p) (values p) (parent p)
    (mmap_granularity p).
Definition set_buffers (v : list blkid_bufinfo) (p : blkid_probe) : blkid_probe :=
  mkProbe (fd p) (off p) (size p) (devno p) (disk_devno p) (blkssz p) (mode p)
    (pflags p) (prob_flags p) (wipe_off p) (wipe_size p) (wipe_chain p)
    v (chains p) (cur_chain p) (values p) (parent p) (mmap_granularity p).
Definition set_chains (v : chain_array) (p : blkid_probe) : blkid_probe :=
  mkProbe (fd p) (off p) (size p) (devno p) (disk_devno p) (blkssz p) (mode p)
    (pflags p) (prob_flags p) (wipe_off p) (wipe_size p) (wipe_chain p)
    (buffers p) v (cur_chain p) (values p) (parent p) (mmap_granularity p).
Definition set_values (v : list blkid_prval) (p : blkid_probe) : blkid_probe :=
  mkProbe (fd p) (off p) (size p) (devno p) (disk_devno p) (blkssz p) (mode p)
    (pflags p) (prob_flags p) (wipe_off p) (wipe_size p) (wipe_chain p)
    (buffers p) (chains p) (cur_chain p) v (parent p) (mmap_granularity p).
Definition set_parent (v : option blkid_probe) (p : blkid_probe) : blkid_probe :=
  mkProbe (fd p) (off p) (size p) (devno p) (disk_devno p) (blkssz p) (mode p)
    (pflags p) (prob_flags p) (wipe_off p) (wipe_size p) (wipe_chain p)
    (buffers p) (chains p) (cur_chain p) (values p) v (mmap_granularity p).
Definition set_granularity (v : Z) (p : blkid_probe) : blkid_probe :=
  mkProbe (fd p) (off p) (size p) (devno p) (disk_devno p) (blkssz p) (mode p)
    (pflags p) (prob_flags p) (wipe_off p) (wipe_size p) (wipe_chain p)
    (buffers p) (chains p) (cur_chain p) (values p) (parent p) v.

(** [pr->chains[i]] and an update of it in place. *)
Definition get_chain (p : blkid_probe) (i : chain_ix) : blkid_chain :=
  chains_get (chains p) i.
Definition upd_chain (i : chain_ix) (f : blkid_chain -> blkid_chain)
    (p : blkid_probe) : blkid_probe :=
  set_chains (chains_upd (chains p) i f) p.

(** ** Values *)

(** [blkid_probe_free_value] on a listed value is its removal from the list;
    [blkid_probe_chain_reset_values] removes the values of one chain. *)
Definition blkid_probe_chain_reset_values (pr : blkid_probe) (chn : chain_ix)
  : blkid_probe :=
  match values pr with
  | [] => pr
  | vs => set_values
            (filter (fun v => v_chain v <> Some chn) vs) pr
  end.

Definition blkid_probe_chain_reset_position (chn : blkid_chain) : blkid_chain :=
  chain_set_idx (-1) chn.

(** [blkid_probe_reset_values]: frees the whole list. *)
Definition blkid_probe_reset_values (pr : blkid_probe) : blkid_probe :=
  match values pr with
  | [] => pr
  | _ => set_values [] pr
  end.

(** [blkid_probe_reset_buffer]: unmaps and frees every cached buffer. *)
Definition blkid_probe_reset_buffer (pr : blkid_probe) : blkid_probe :=
  match buffers pr with
  | [] => pr
  | _ => set_buffers [] pr
  end.

(** ** Wiper *)

Definition blkid_probe_set_wiper (pr : blkid_probe) (o sz : Z) : blkid_probe :=
  if sz =? 0 then set_wipe 0 0 None pr
  else
    match cur_chain pr with
    | None => pr
    | Some c =>
        let chn := get_chain pr c in
        if (idx chn <? 0) || (size_t (idx chn) >=? nidinfos (driver chn))
        then pr
        else set_wipe o sz (Some c) pr
    end.

(** [blkid_probe_is_wiped]: the return value and what is stored to [*chn]. *)
Definition blkid_probe_is_wiped (pr : blkid_probe) (o sz : Z)
  : bool * option chain_ix :=
  if sz =? 0 then (false, None)
  else if (wipe_off pr <=? o)
          && (u64 (o + sz) <=? u64 (wipe_off pr + wipe_size pr))
       then (true, wipe_chain pr)
       else (false, None).

Definition blkid_probe_use_wiper (pr : blkid_probe) (o sz : Z) : blkid_probe :=
  match blkid_probe_is_wiped pr o sz with
  | (true, Some chn) =>
      blkid_probe_chain_reset_values (blkid_probe_set_wiper pr 0 0) chn
  | _ => pr
  end.

(** ** Start, end and reset of a probing run *)

Definition blkid_probe_start (pr : blkid_probe) : blkid_probe :=
  blkid_probe_set_wiper (set_prob_flags 0 (set_cur_chain None pr)) 0 0.

Definition blkid_probe_end (pr : blkid_probe) : blkid_probe :=
  blkid_probe_set_wiper (set_prob_flags 0 (set_cur_chain None pr)) 0 0.

Definition blkid_reset_probe (pr : blkid_probe) : blkid_probe :=
  let pr1 := blkid_probe_set_wiper (blkid_probe_reset_values pr) 0 0 in
  let pr2 := set_cur_chain None pr1 in
  fold_left (fun p i => upd_chain i blkid_probe_chain_reset_position p)
            all_chains pr2.

(** ** Buffer cache *)

(** A call either returns or stops the program in a failed [assert]. *)
Inductive outcome (A : Type) :=
| Aborted
| Returned (a : A).
Arguments Aborted {A}.
Arguments Returned {A} a.

Definition S_IFMT : Z := 61440.     (* 0170000 *)
Definition S_IFCHR : Z := 8192.     (* 0020000 *)
Definition S_IFBLK : Z := 24576.    (* 0060000 *)
Definition S_IFREG : Z := 32768.    (* 0100000 *)
Definition S_ISCHR (m : Z) : bool := Z.land m S_IFMT =? S_IFCHR.
Definition S_ISBLK (m : Z) : bool := Z.land m S_IFMT =? S_IFBLK.
Definition S_ISREG (m : Z) : bool := Z.land m S_IFMT =? S_IFREG.

Definition PROBE_MMAP_BEGINSIZ : Z := 1024 * 1024 * 2.
Definition PROBE_MMAP_ENDSIZ : Z := 1024 * 1024 * 2.
Definition PROBE_MMAP_MIDSIZ : Z := 1024 * 1024.

(** [(o) & ~((p)->mmap_granularity - 1ULL)] on 64 bits. *)
Definition PROBE_ALIGN_OFF (gran o : Z) : Z :=
  Z.land o (2 ^ 64 - 1 - u64 (gran - 1)).

Definition probe_is_mmap_wanted (pr : blkid_probe) : bool :=
  negb (S_ISCHR (mode pr)).

(** [(ssize_t) len] *)
Definition to_ssize (x : Z) : Z := (x + 2 ^ 63) mod 2 ^ 64 - 2 ^ 63.

Section Engine.

(** *** The operating system, as seen through the prober's descriptor *)

Variable sys_getpagesize : Z.
(** [mmap(NULL, len, PROT_READ, MAP_SHARED, fd, off)]: the errno of a
    MAP_FAILED, or the mapped bytes. *)
Variable sys_mmap : Z -> Z -> Z -> Z + list Z.
(** [blkid_llseek(fd, off, SEEK_SET) >= 0] *)
Variable sys_llseek : Z -> Z -> bool.
(** [read(fd, data, len)] at the offset of the preceding seek: the return
    value, the errno it leaves, and the bytes stored. *)
Variable sys_read : Z -> Z -> Z -> Z * Z * list Z.
(** [sizeof(struct blkid_bufinfo)] *)
Variable sizeof_bufinfo : Z.

(** Memory allocation ([malloc], [calloc]) is taken to succeed. *)

Definition mmap_buffer (pr : blkid_probe) (real_off len : Z)
  : outcome ((Z + blkid_bufinfo) * blkid_probe) :=
  let pr := if mmap_granularity pr =? 0
            then set_granularity sys_getpagesize pr else pr in
  let gran := mmap_granularity pr in
  let '(map_off, map_len) :=
    if (real_off =? 0) || (u64 (real_off + len) <? PROBE_MMAP_BEGINSIZ) then
      (0, if PROBE_MMAP_BEGINSIZ >? size pr then size pr
          else PROBE_MMAP_BEGINSIZ)
    else if real_off >? u64 (off pr + size pr - PROBE_MMAP_ENDSIZ) then
      let mo := PROBE_ALIGN_OFF gran (u64 (off pr + size pr - PROBE_MMAP_ENDSIZ)) in
      (mo, u64 (off pr + size pr - mo))
    else
      let mo := PROBE_ALIGN_OFF gran real_off in
      let minlen := u64 (real_off + len - mo) in
      let ml := if minlen >? PROBE_MMAP_MIDSIZ then minlen
                else PROBE_MMAP_MIDSIZ in
      (mo, if u64 (mo + ml) >? u64 (off pr + size pr)
           then u64 (size pr - mo) else ml) in
  if negb (map_off <=? real_off) then Aborted
  else if negb (u64 (map_off + map_len) >=? u64 (real_off + len)) then Aborted
  else
    match sys_mmap (fd pr) map_len map_off with
    | inl e => Returned (inl e, pr)
    | inr data => Returned (inr (mkBuf data map_off map_len), pr)
    end.

Definition read_buffer (pr : blkid_probe) (real_off len : Z)
  : Z + blkid_bufinfo :=
  if negb (sys_llseek (fd pr) real_off) then inl 0
  else if len >? ULONG_MAX - sizeof_bufinfo then inl ENOMEM
  else
    let '(ret, e, data) := sys_read (fd pr) real_off len in
    if negb (ret =? to_ssize len) then inl (if ret >=? 0 then 0 else e)
    else inr (mkBuf data real_off len).

(** What the returned pointer [bf->data + (real_off - bf->off)] points to:
    the bytes of the buffer from there on. *)
Definition buffer_view (bf : blkid_bufinfo) (real_off : Z) : list Z :=
  if real_off =? 0 then bf_data bf
  else drop (Z.to_nat (real_off - bf_off bf)) (bf_data bf).

(** The part of [blkid_probe_get_buffer] that works on the prober's own
    cache: reuse the first cached range that covers the request, else read
    from the device and append the new range. *)
Definition get_own_buffer (pr : blkid_probe) (real_off len : Z)
  : outcome (option (list Z) * Z * blkid_probe) :=
  let hit := List.find (fun x => (real_off >=? bf_off x)
                        && (u64 (real_off + len) <=? u64 (bf_off x + bf_len x)))
                       (buffers pr) in
  let fetched : outcome ((Z + blkid_bufinfo) * blkid_probe) :=
    match hit with
    | Some x => Returned (inr x, pr)
    | None =>
        let r := if probe_is_mmap_wanted pr then mmap_buffer pr real_off len
                 else Returned (read_buffer pr real_off len, pr) in
        match r with
        | Aborted => Aborted
        | Returned (inl e, pr') => Returned (inl e, pr')
        | Returned (inr bf, pr') =>
            Returned (inr bf, set_buffers (buffers pr' ++ [bf]) pr')
        end
    end in
  match fetched with
  | Aborted => Aborted
  | Returned (inl e, pr') => Returned (None, e, pr')
  | Returned (inr bf, pr') =>
      if negb (bf_off bf <=? real_off) then Aborted
      else if negb (u64 (bf_off bf + bf_len bf) >=? u64 (real_off + len))
      then Aborted
      else Returned (Some (buffer_view bf real_off), 0, pr')
  end.

(** [blkid_probe_get_buffer(pr, off, len)]: the returned pointer (its view),
    the errno left behind, and the prober afterwards.  A clone whose parent
    covers its area forwards the request, so the recursion follows the
    [parent] link. *)
Fixpoint blkid_probe_get_buffer (pr : blkid_probe) (o len : Z) {struct pr}
  : outcome (option (list Z) * Z * blkid_probe) :=
  let real_off := u64 (off pr + o) in
  if size pr =? 0 then Returned (None, EINVAL, pr)
  else if (len =? 0) || (u64 (off pr + size pr) <? u64 (real_off + len))
  then Returned (None, 0, pr)
  else
    match parent pr with
    | Some par =>
        if (devno par =? devno pr) && (off par <=? off pr)
           && (u64 (off par + size par) >=? u64 (off pr + size pr))
        then
          match blkid_probe_get_buffer par (u64 (off pr + o - off par)) len with
          | Aborted => Aborted
          | Returned (b, e, par') => Returned (b, e, set_parent (Some par') pr)
          end
        else get_own_buffer pr real_off len
    | None => get_own_buffer pr real_off len
    end.

(** ** Magic matcher *)

(** [(mag->kboff + (mag->sboff >> 10)) << 10], stored to a [uint64_t]. *)
Definition slot_off (mag : blkid_idmag) : Z :=
  u64 (Z.shiftl (kboff mag + Z.shiftr (sboff mag) 10) 10).

(** [mag->sboff & 0x3ff] *)
Definition slot_idx (mag : blkid_idmag) : Z := Z.land (sboff mag) 1023.

(** [memcmp(a, b, n) == 0] for operands that hold at least [n] bytes. *)
Definition memcmp_eq (a b : list Z) (n : Z) : bool :=
  bool_decide (take (Z.to_nat n) a = take (Z.to_nat n) b).

(** One turn of the matcher's loop. *)
Inductive visit_result :=
| Hit (effective_off : Z) (pr : blkid_probe)   (* return BLKID_PROBE_OK *)
| Miss (pr : blkid_probe)                      (* mag++ *)
| Err (errno : Z) (pr : blkid_probe)           (* return -errno *)
| Crash.                                       (* assert() in the cache *)

Definition visit (pr : blkid_probe) (mag : blkid_idmag) : visit_result :=
  let o := slot_off mag in
  match blkid_probe_get_buffer pr o 1024 with
  | Aborted => Crash
  | Returned (None, e, pr') => if negb (e =? 0) then Err e pr' else Miss pr'
  | Returned (Some buf, _, pr') =>
      if memcmp_eq (magic mag) (drop (Z.to_nat (slot_idx mag)) buf) (len mag)
      then Hit (u64 (o + slot_idx mag)) pr'
      else Miss pr'
  end.

(** The while loop; [dflt] is what the code after the loop returns.  The
    result is the return code, what was stored to [*offset] and [*res] (if
    anything), and the prober. *)
Fixpoint idmag_scan (pr : blkid_probe) (mags : list blkid_idmag) (dflt : Z)
  : outcome (Z * option (Z * blkid_idmag) * blkid_probe) :=
  match mags with
  | [] => Returned (dflt, None, pr)
  | mag :: rest =>
      match visit pr mag with
      | Crash => Aborted
      | Err e pr' => Returned (- e, None, pr')
      | Hit o pr' => Returned (BLKID_PROBE_OK, Some (o, mag), pr')
      | Miss pr' => idmag_scan pr' rest dflt
      end
  end.

Definition blkid_probe_get_idmag (pr : blkid_probe) (id : option blkid_idinfo)
  : outcome (Z * option (Z * blkid_idmag) * blkid_probe) :=
  let mags := match id with Some i => magics i | None => [] end in
  idmag_scan pr mags
    (match mags with [] => BLKID_PROBE_OK | _ => BLKID_PROBE_NONE end).

(** ** Iteration driver *)

(** The function members of a chain driver. *)
Variable driver_probe : blkid_chaindrv -> blkid_probe -> chain_ix -> Z * blkid_probe.
Variable driver_safeprobe : blkid_chaindrv -> blkid_probe -> chain_ix -> Z * blkid_probe.

(** A record of one call through a driver's function pointer: which member,
    on which chain, with which prober, and what it returned. *)
Inductive member := MProbe | MSafeprobe.
Record call := mkCall {
  c_member : member;
  c_chain : chain_ix;
  c_arg : blkid_probe;
  c_rc : Z
}.

(** Chain selection at the head of a turn of [blkid_do_probe]'s loop. *)
Inductive selection :=
| Selected (i : chain_ix) (pr : blkid_probe)
| Finished (pr : blkid_probe).         (* blkid_probe_end(pr); return 1 *)

(** The condition under which the loop leaves the current chain. *)
Definition leaves_chain (rc : Z) (chn : blkid_chain) : bool :=
  (rc =? 1) && (negb (enabled chn)
                || (idx chn + 1 =? to_int (nidinfos (driver chn)))
                || (idx chn =? -1)).

Definition select_chain (rc : Z) (pr : blkid_probe) : selection :=
  match cur_chain pr with
  | None =>
      Selected BLKID_CHAIN_SUBLKS
        (set_cur_chain (Some BLKID_CHAIN_SUBLKS) (blkid_probe_start pr))
  | Some c =>
      let chn := get_chain pr c in
      if leaves_chain rc chn then
        let i := size_t (drv_id (driver chn) + 1) in
        if i <? BLKID_NCHAINS then
          match chain_at i with
          | Some n => Selected n (set_cur_chain (Some n) pr)
          | None => Finished (blkid_probe_end pr)
          end
        else Finished (blkid_probe_end pr)
      else Selected c pr
  end.

(** The do-while loop of [blkid_do_probe]; a driver is free to answer 1
    for ever, so the turns are counted by [fuel]. *)
Fixpoint do_probe_loop (fuel : nat) (rc : Z) (pr : blkid_probe)
    (tr : list call) : option (Z * blkid_probe * list call) :=
  match fuel with
  | O => None
  | S fuel' =>
      match select_chain rc pr with
      | Finished pr' => Some (1, pr', tr)
      | Selected i pr1 =>
          let pr2 := upd_chain i (chain_set_binary false) pr1 in
          let chn := get_chain pr2 i in
          if negb (enabled chn) then
            (* continue *)
            if rc =? 1 then do_probe_loop fuel' rc pr2 tr
            else Some (rc, pr2, tr)
          else
            let '(rc', pr3) := driver_probe (driver chn) pr2 i in
            let tr' := tr ++ [mkCall MProbe i pr2 rc'] in
            if rc' =? 1 then do_probe_loop fuel' rc' pr3 tr'
            else Some (rc', pr3, tr')
      end
  end.

Definition blkid_do_probe (fuel : nat) (pr : blkid_probe)
  : option (Z * blkid_probe * list call) :=
  if fl_noscan_dev (pflags pr) then Some (1, pr, [])
  else do_probe_loop fuel 1 pr [].

Definition blkid_probe_step_back (pr : blkid_probe) : Z * blkid_probe :=
  match cur_chain pr with
  | None => (-1, pr)
  | Some c =>
      let pr1 := blkid_probe_reset_buffer pr in
      let pr2 := if idx (get_chain pr1 c) >=? 0
                 then upd_chain c (fun ch => chain_set_idx (idx ch - 1) ch) pr1
                 else pr1 in
      let chn := get_chain pr2 c in
      if idx chn =? -1 then
        let i := if drv_id (driver chn) >? 0
                 then size_t (drv_id (driver chn) - 1) else 0 in
        (* [&pr->chains[i]]; an [i] behind the array has no position *)
        if i >? 0 then (0, set_cur_chain (chain_at i) pr2)
        else if i =? 0 then (0, set_cur_chain None pr2)
        else (0, pr2)
      else (0, pr2)
  end.

(** The for loop shared by [blkid_do_safeprobe] and [blkid_do_fullprobe];
    [m] tells which driver member the body calls.  The result is
    [(count, rc)], the prober and the calls made. *)
Definition call_member (m : member) :=
  match m with MProbe => driver_probe | MSafeprobe => driver_safeprobe end.

Fixpoint gather_loop (m : member) (todo : list chain_ix) (count rc : Z)
    (pr : blkid_probe) (tr : list call)
  : Z * Z * blkid_probe * list call :=
  match todo with
  | [] => (count, rc, pr, tr)
  | i :: rest =>
      let pr1 := upd_chain i (chain_set_binary false)
                   (set_cur_chain (Some i) pr) in
      if negb (enabled (get_chain pr1 i)) then
        gather_loop m rest count rc pr1 tr
      else
        let pr2 := upd_chain i blkid_probe_chain_reset_position pr1 in
        let '(rc', pr3) := call_member m (driver (get_chain pr2 i)) pr2 i in
        let pr4 := upd_chain i blkid_probe_chain_reset_position pr3 in
        let tr' := tr ++ [mkCall m i pr2 rc'] in
        if rc' <? 0 then (count, rc', pr4, tr')          (* goto done *)
        else gather_loop m rest (if rc' =? 0 then count + 1 else count)
                         rc' pr4 tr'
  end.

Definition gather (m : member) (pr : blkid_probe)
  : Z * blkid_probe * list call :=
  if fl_noscan_dev (pflags pr) then (1, pr, [])
  else
    let '(count, rc, pr1, tr) :=
      gather_loop m all_chains 0 0 (blkid_probe_start pr) [] in
    let pr2 := blkid_probe_end pr1 in
    if rc <? 0 then (rc, pr2, tr)
    else (if count =? 0 then 1 else 0, pr2, tr).

Definition blkid_do_safeprobe (pr : blkid_probe) := gather MSafeprobe pr.
Definition blkid_do_fullprobe (pr : blkid_probe) := gather MProbe pr.

(** ** Value-producing operations *)

(** [blkid_probe_assign_value]: a zeroed value, named and tagged with the
    current chain, goes to the tail of the list.  The returned pointer is the
    last element of the list ([None] for a NULL [name]). *)
Definition blkid_probe_assign_value (pr : blkid_probe) (name : option string)
  : option blkid_probe :=
  match name with
  | None => None
  | Some n => Some (set_values (values pr ++ [mkVal n [] 0 (cur_chain pr)]) pr)
  end.

(** A store through the pointer that [blkid_probe_assign_value] returned. *)
Definition upd_last_value (f : blkid_prval -> blkid_prval) (pr : blkid_probe)
  : blkid_probe :=
  match reverse (values pr) with
  | [] => pr
  | v :: before => set_values (reverse before ++ [f v]) pr
  end.

(** [blkid_probe_free_value] of that same value. *)
Definition free_last_value (pr : blkid_probe) : blkid_probe :=
  match reverse (values pr) with
  | [] => pr
  | _ :: before => set_values (reverse before) pr
  end.

(** [blkid_probe_value_set_data(v, data, len)]: [len + 1] zeroed bytes,
    then [len] bytes copied from [data]. *)
Definition blkid_probe_value_set_data (data : list Z) (n : Z) (v : blkid_prval)
  : blkid_prval :=
  mkVal (v_name v) (take (Z.to_nat n) data ++ [0]) n (v_chain v).

Definition blkid_probe_set_value (pr : blkid_probe) (name : option string)
    (data : list Z) (n : Z) : Z * blkid_probe :=
  match blkid_probe_assign_value pr name with
  | None => (-1, pr)
  | Some pr' => (0, upd_last_value (blkid_probe_value_set_data data n) pr')
  end.

(** [blkid_probe_vsprintf_value]; [formatted] is what [vasprintf] makes of
    the format and its arguments: [inr] the string, or [inl] its negative
    return value. *)
Definition blkid_probe_vsprintf_value (pr : blkid_probe) (name : option string)
    (formatted : Z + list Z) : Z * blkid_probe :=
  match blkid_probe_assign_value pr name with
  | None => (- ENOMEM, pr)
  | Some pr' =>
      let n := match formatted with
               | inl e => e
               | inr str => Z.of_nat (length str)
               end in
      if n <=? 0 then
        (if n =? 0 then - EINVAL else - ENOMEM, free_last_value pr')
      else
        let str := match formatted with inl _ => [] | inr str => str end in
        (0, upd_last_value
              (fun v => mkVal (v_name v) (str ++ [0]) (n + 1) (v_chain v)) pr')
  end.

Definition blkid_probe_sprintf_value := blkid_probe_vsprintf_value.

(** The two chain flags of blkid.h that gate the magic values, and libc's
    rendering of ["%llu"]. *)
Variable BLKID_SUBLKS_MAGIC : Z.
Variable BLKID_PARTS_MAGIC : Z.
Variable format_llu : Z -> Z + list Z.

Definition blkid_probe_set_magic (pr : blkid_probe) (offset n : Z)
    (magic : option (list Z)) : Z * blkid_probe :=
  match cur_chain pr, magic with
  | Some c, Some bytes =>
      let chn := get_chain pr c in
      if (n =? 0) || binary chn then (0, pr)
      else
        let both (tag tag_off : string) :=
          let '(rc, pr1) := blkid_probe_set_value pr (Some tag) bytes n in
          if rc =? 0
          then blkid_probe_sprintf_value pr1 (Some tag_off) (format_llu offset)
          else (rc, pr1) in
        if drv_id (driver chn) =? ix_pos BLKID_CHAIN_SUBLKS then
          if Z.land (flags chn) BLKID_SUBLKS_MAGIC =? 0 then (0, pr)
          else both "SBMAGIC"%string "SBMAGIC_OFFSET"%string
        else if drv_id (driver chn) =? ix_pos BLKID_CHAIN_PARTS then
          if Z.land (flags chn) BLKID_PARTS_MAGIC =? 0 then (0, pr)
          else both "PTMAGIC"%string "PTMAGIC_OFFSET"%string
        else (0, pr)
  | _, _ => (0, pr)
  end.

(** ** Device assignment *)

(** [fstat(fd, &sb)]: [None] when it fails, else [st_mode], [st_rdev],
    [st_size]. *)
Variable sys_fstat : Z -> option (Z * Z * Z).
(** [blkdev_get_size(fd, &devsiz)]: [None] when it fails. *)
Variable blkdev_get_size : Z -> option Z.
Variable sysfs_devno_is_lvm_private : Z -> bool.
(** [ioctl(fd, CDROM_GET_CAPABILITY, NULL) >= 0] *)
Variable sys_ioctl_cdrom : Z -> bool.
(** [blkid_devno_to_wholedisk(devno, NULL, 0, &disk_devno)]: [None] when
    the result is not 0. *)
Variable blkid_devno_to_wholedisk : Z -> option Z.

Definition set_pflags (v : probe_flags) (p : blkid_probe) : blkid_probe :=
  mkProbe (fd p) (off p) (size p) (devno p) (disk_devno p) (blkssz p) (mode p)
    v (prob_flags p) (wipe_off p) (wipe_size p) (wipe_chain p)
    (buffers p) (chains p) (cur_chain p) (values p) (parent p)
    (mmap_granularity p).
Definition set_disk_devno (v : Z) (p : blkid_probe) : blkid_probe :=
  mkProbe (fd p) (off p) (size p) (devno p) v (blkssz p) (mode p)
    (pflags p) (prob_flags p) (wipe_off p) (wipe_size p) (wipe_chain p)
    (buffers p) (chains p) (cur_chain p) (values p) (parent p)
    (mmap_granularity p).
Definition set_size (v : Z) (p : blkid_probe) : blkid_probe :=
  mkProbe (fd p) (off p) v (devno p) (disk_devno p) (blkssz p) (mode p)
    (pflags p) (prob_flags p) (wipe_off p) (wipe_size p) (wipe_chain p)
    (buffers p) (chains p) (cur_chain p) (values p) (parent p)
    (mmap_granularity p).
Definition set_mode_devno (m d : Z) (p : blkid_probe) : blkid_probe :=
  mkProbe (fd p) (off p) (size p) d (disk_devno p) (blkssz p) m
    (pflags p) (prob_flags p) (wipe_off p) (wipe_size p) (wipe_chain p)
    (buffers p) (chains p) (cur_chain p) (values p) (parent p)
    (mmap_granularity p).

Definition blkid_probe_is_tiny (pr : blkid_probe) : bool :=
  fl_tiny_dev (pflags pr).

Definition blkid_probe_get_wholedisk_devno (pr : blkid_probe)
  : Z * blkid_probe :=
  if disk_devno pr =? 0 then
    if devno pr =? 0 then (0, pr)
    else match blkid_devno_to_wholedisk (devno pr) with
         | Some d => (d, set_disk_devno d pr)
         | None => (disk_devno pr, pr)
         end
  else (disk_devno pr, pr).

Definition blkid_probe_is_wholedisk (pr : blkid_probe) : bool * blkid_probe :=
  if devno pr =? 0 then (false, pr)
  else
    let '(disk, pr') := blkid_probe_get_wholedisk_devno pr in
    if disk =? 0 then (false, pr') else (devno pr =? disk, pr').

(** [blkid_probe_set_device(pr, fd, off, size)]; [off] and [size] arrive as
    [blkid_loff_t] and are stored as [uint64_t].  Closing a private
    descriptor has no effect on the prober itself. *)
Definition blkid_probe_set_device (pr : blkid_probe) (new_fd o sz : Z)
  : Z * blkid_probe :=
  let pr1 := blkid_probe_reset_buffer (blkid_reset_probe pr) in
  let fl := pflags pr1 in
  let pr2 :=
    mkProbe new_fd (u64 o) 0 0 0 0 0
      (mkFlags false false false (fl_noscan_dev fl))
      0 0 0 None
      (buffers pr1) (chains pr1) (cur_chain pr1) (values pr1) (parent pr1)
      (mmap_granularity pr1) in
  match sys_fstat new_fd with
  | None => (-1, pr2)
  | Some (st_mode, st_rdev, st_size) =>
      if negb (S_ISBLK st_mode) && negb (S_ISCHR st_mode)
         && negb (S_ISREG st_mode)
      then (-1, pr2)
      else
        let pr3 := set_mode_devno st_mode
                     (if S_ISBLK st_mode || S_ISCHR st_mode then st_rdev
                      else devno pr2) pr2 in
        let devsiz :=
          if S_ISBLK st_mode then blkdev_get_size new_fd
          else if S_ISCHR st_mode then Some 1
          else if S_ISREG st_mode then Some (u64 st_size)
          else Some 0 in
        match devsiz with
        | None => (-1, pr3)
        | Some devsiz =>
            let sz0 := if sz =? 0 then devsiz else u64 sz in
            let sz1 := if negb (o =? 0) && (sz =? 0) then u64 (sz0 - u64 o)
                       else sz0 in
            let pr4 := set_size sz1 pr3 in
            if u64 (off pr4 + size pr4) >? devsiz then (-1, pr4)
            else
              let pr5 :=
                if (size pr4 <=? 1440 * 1024) && negb (S_ISCHR st_mode)
                then set_pflags (mkFlags (fl_private_fd (pflags pr4)) true
                                   (fl_cdrom_dev (pflags pr4))
                                   (fl_noscan_dev (pflags pr4))) pr4
                else pr4 in
              if S_ISBLK st_mode && sysfs_devno_is_lvm_private st_rdev then
                (0, set_pflags (mkFlags (fl_private_fd (pflags pr5))
                                  (fl_tiny_dev (pflags pr5))
                                  (fl_cdrom_dev (pflags pr5)) true) pr5)
              else if S_ISBLK st_mode && negb (blkid_probe_is_tiny pr5) then
                let '(whole, pr6) := blkid_probe_is_wholedisk pr5 in
                if whole && sys_ioctl_cdrom new_fd then
                  (0, set_pflags (mkFlags (fl_private_fd (pflags pr6))
                                    (fl_tiny_dev (pflags pr6)) true
                                    (fl_noscan_dev (pflags pr6))) pr6)
                else (0, pr6)
              else (0, pr5)
        end
  end.

(** ** The allocation of a prober, and sample objects *)

(** [__blkid_new_probe]: a zeroed object whose chains take their driver's
    defaults; [drvs] is the table [chains_drvs[]]. *)
Definition new_chain (drv : blkid_chaindrv) : blkid_chain :=
  mkChain drv (dflt_enabled drv) (dflt_flags drv) false 0 None.

Definition __blkid_new_probe (drv0 drv1 drv2 : blkid_chaindrv) : blkid_probe :=
  mkProbe 0 0 0 0 0 0 0 (mkFlags false false false false) 0 0 0 None []
    (mkChains (new_chain drv0) (new_chain drv1) (new_chain drv2))
    None [] None 0.

(** The ext2 magic: two bytes at offset 0x38 of the kilobyte 1. *)
Definition ext2_magic : blkid_idmag := mkMag [83; 239] 2 1 56.
Definition ext2_idinfo : blkid_idinfo := mkIdinfo "ext2" [ext2_magic].
Definition swap_idinfo : blkid_idinfo :=
  mkIdinfo "swap" [mkMag [83; 87; 65; 80] 4 0 4086].

Definition sample_sublks : blkid_chaindrv :=
  mkDrv 0 "superblocks" 0 true true [swap_idinfo; ext2_idinfo] 2.
Definition sample_toplgy : blkid_chaindrv :=
  mkDrv 1 "topology" 0 false false [] 0.
Definition sample_parts : blkid_chaindrv :=
  mkDrv 2 "partitions" 0 false true [] 0.

(** An 8 KiB image with the ext2 magic at byte 1080, as a regular file behind
    descriptor 3, and a private LVM block device behind descriptor 4. *)
Definition sample_byte (o : Z) : Z :=
  if o =? 1080 then 83 else if o =? 1081 then 239 else 0.
Definition sample_bytes (o n : Z) : list Z :=
  map (fun k => sample_byte (o + Z.of_nat k)) (seq 0 (Z.to_nat n)).
Definition sample_mmap (fd n o : Z) : Z + list Z := inr (sample_bytes o n).
Definition sample_llseek (fd o : Z) : bool := true.
Definition sample_read (fd o n : Z) : Z * Z * list Z := (n, 0, sample_bytes o n).
Definition sample_fstat (fd : Z) : option (Z * Z * Z) :=
  if fd =? 3 then Some (S_IFREG, 0, 8192)
  else if fd =? 4 then Some (S_IFBLK, 64768, 0)
  else None.
Definition sample_blkdev_size (fd : Z) : option Z := Some 8192.
Definition sample_lvm_private (rdev : Z) : bool := rdev =? 64768.
Definition sample_cdrom (fd : Z) : bool := false.
Definition sample_wholedisk (d : Z) : option Z := Some d.

(** A fresh prober, the prober on the image, and the prober on the LVM
    device. *)
Definition fresh_pr : blkid_probe :=
  __blkid_new_probe sample_sublks sample_toplgy sample_parts.

(** A [probe] member that finds one signature in the superblocks chain and
    nothing else, and a [safeprobe] member that reports the same. *)
Definition sample_driver_probe (drv : blkid_chaindrv) (p : blkid_probe)
    (i : chain_ix) : Z * blkid_probe :=
  if (drv_id drv =? 0) && (idx (get_chain p i) =? -1)
  then (0, upd_chain i (chain_set_idx 0) p)
  else (1, upd_chain i (chain_set_idx (-1)) p).

Definition sample_driver_safeprobe (drv : blkid_chaindrv) (p : blkid_probe)
    (i : chain_ix) : Z * blkid_probe :=
  (if drv_id drv =? 0 then 0 else 1, p).

(* --------------------------------------------------------------------- *)
(** ** Properties *)
(* --------------------------------------------------------------------- *)

(** Storing a field's own content changes nothing. *)
Lemma set_values_same (pr : blkid_probe) : set_values (values pr) pr = pr.
Proof. by destruct pr. Qed.

Lemma set_buffers_same (pr : blkid_probe) : set_buffers (buffers pr) pr = pr.
Proof. by destruct pr. Qed.

Lemma reset_buffer_empties (pr : blkid_probe) :
  blkid_probe_reset_buffer pr = set_buffers [] pr.
Proof.
  unfold blkid_probe_reset_buffer.
  destruct (buffers pr) eqn:E; [|done].
  by rewrite <- E, set_buffers_same.
Qed.

Lemma reset_values_empties (pr : blkid_probe) :
  blkid_probe_reset_values pr = set_values [] pr.
Proof.
  unfold blkid_probe_reset_values.
  destruct (values pr) eqn:E; [|done].
  by rewrite <- E, set_values_same.
Qed.

Lemma chain_reset_values_filter (pr : blkid_probe) (c : chain_ix) :
  blkid_probe_chain_reset_values pr c
  = set_values (filter (fun v => v_chain v <> Some c) (values pr)) pr.
Proof.
  unfold blkid_probe_chain_reset_values.
  destruct pr as [? ? ? ? ? ? ? ? ? ? ? ? ? ? ? vs ? ?]; cbn [values].
  by destruct vs.
Qed.

(** *** Buffer cache: requests outside the probing area *)

(** C4 (as the code has it).  With a non-empty probing window, a request of
    length zero, or one whose end lies behind the end of the window in the
    code's 64-bit arithmetic, returns NULL and leaves errno at 0 -- not at
    EINVAL -- and the prober, its buffer list included, is what it was. *)
Theorem get_buffer_outside_area :
  forall (pr : blkid_probe) (o len : Z),
    size pr <> 0 ->
    (len = 0 \/ u64 (off pr + size pr) < u64 (u64 (off pr + o) + len)) ->
    blkid_probe_get_buffer pr o len = Returned (None, 0, pr).
Proof.
  intros pr o len Hsz Hout.
  destruct pr; cbn [blkid_probe_get_buffer size off] in *.
  apply Z.eqb_neq in Hsz. rewrite Hsz.
  destruct Hout as [-> | Hlt].
  - reflexivity.
  - apply Z.ltb_lt in Hlt. rewrite Hlt, orb_true_r. reflexivity.
Qed.

(** Without wrap-around the test of the code is the plain one: the request
    ends behind the end of the window. *)
Lemma outside_area_plain (pr : blkid_probe) (o len : Z) :
  0 <= off pr -> 0 <= size pr -> 0 <= o -> 0 <= len ->
  off pr + size pr < 2 ^ 64 ->
  off pr + o + len < 2 ^ 64 ->
  u64 (off pr + size pr) < u64 (u64 (off pr + o) + len)
  <-> off pr + size pr < off pr + o + len.
Proof.
  intros. unfold u64.
  rewrite (Z.mod_small (off pr + o)) by lia.
  rewrite !Z.mod_small by lia. reflexivity.
Qed.

(** The invalid-argument error belongs to the empty window. *)
Lemma get_buffer_empty_window :
  forall (pr : blkid_probe) (o len : Z),
    size pr = 0 ->
    blkid_probe_get_buffer pr o len = Returned (None, EINVAL, pr).
Proof.
  intros pr o len Hsz.
  destruct pr; cbn [blkid_probe_get_buffer size] in *. by rewrite Hsz.
Qed.

(** *** Wiper *)

(** The match [<o, sz>] lies wholly within the wipe area, as
    [blkid_probe_is_wiped] computes it. *)
Definition wholly_within (pr : blkid_probe) (o sz : Z) : Prop :=
  sz <> 0 /\ wipe_off pr <= o
  /\ u64 (o + sz) <= u64 (wipe_off pr + wipe_size pr).

Lemma is_wiped_spec (pr : blkid_probe) (o sz : Z) :
  (wholly_within pr o sz ->
     blkid_probe_is_wiped pr o sz = (true, wipe_chain pr))
  /\ (~ wholly_within pr o sz ->
     blkid_probe_is_wiped pr o sz = (false, None)).
Proof.
  unfold wholly_within, blkid_probe_is_wiped. split.
  - intros (Hsz & H1 & H2).
    apply Z.eqb_neq in Hsz. apply Z.leb_le in H1, H2.
    by rewrite Hsz, H1, H2.
  - intros Hn. destruct (sz =? 0) eqn:Esz; [done|].
    destruct (wipe_off pr <=? o) eqn:E1; [|done].
    destruct (u64 (o + sz) <=? u64 (wipe_off pr + wipe_size pr)) eqn:E2;
      [|done].
    exfalso. apply Hn. apply Z.eqb_neq in Esz. apply Z.leb_le in E1, E2.
    done.
Qed.

(** Without wrap-around: [wipe_off <= o] and
    [o + sz <= wipe_off + wipe_size], with [sz > 0]. *)
Lemma wholly_within_plain (pr : blkid_probe) (o sz : Z) :
  0 <= o -> 0 <= sz -> 0 <= wipe_off pr -> 0 <= wipe_size pr ->
  o + sz < 2 ^ 64 ->
  wipe_off pr + wipe_size pr < 2 ^ 64 ->
  wholly_within pr o sz
  <-> 0 < sz /\ wipe_off pr <= o /\ o + sz <= wipe_off pr + wipe_size pr.
Proof.
  intros. unfold wholly_within, u64. rewrite !Z.mod_small by lia. lia.
Qed.

(** C6.  With a wipe area registered by chain [c]: a match wholly within
    the area resets the wipe record to empty and removes from the value list
    exactly the values of chain [c], keeping the others in their order; a
    match not wholly within it changes nothing. *)
Theorem use_wiper_discards_earlier_match :
  forall (pr : blkid_probe) (o sz : Z) (c : chain_ix),
    wipe_chain pr = Some c ->
    (wholly_within pr o sz ->
       blkid_probe_use_wiper pr o sz
       = set_values (filter (fun v => v_chain v <> Some c) (values pr))
                    (set_wipe 0 0 None pr))
    /\ (~ wholly_within pr o sz -> blkid_probe_use_wiper pr o sz = pr).
Proof.
  intros pr o sz c Hc. unfold blkid_probe_use_wiper.
  destruct (is_wiped_spec pr o sz) as [Hin Hout]. split.
  - intros H. rewrite (Hin H), Hc.
    rewrite chain_reset_values_filter. by destruct pr.
  - intros H. by rewrite (Hout H).
Qed.

(** *** Step back *)

(** Every chain's driver carries the chain's position as its [id]. *)
Definition chains_wf (pr : blkid_probe) : Prop :=
  forall i, drv_id (driver (get_chain pr i)) = ix_pos i.

(** The index after a step back. *)
Definition stepped (n : Z) : Z := if n >=? 0 then n - 1 else n.

(** Where the current-chain pointer goes when the stepped index is -1. *)
Definition rewound (c : chain_ix) : option chain_ix :=
  match c with
  | BLKID_CHAIN_PARTS => Some BLKID_CHAIN_TOPLGY
  | _ => None
  end.

Lemma get_upd_chain_same (pr : blkid_probe) (c : chain_ix) f :
  get_chain (upd_chain c f pr) c = f (get_chain pr c).
Proof. by destruct pr, c. Qed.

Lemma get_upd_chain_other (pr : blkid_probe) (c j : chain_ix) f :
  j <> c -> get_chain (upd_chain c f pr) j = get_chain pr j.
Proof. by destruct pr, c, j. Qed.

(** What a step back does at every position.  With a current chain [c] it
    returns 0, empties the buffer cache whatever the position, decrements
    the idx of [c] when it is at least 0 and touches no other chain and no
    value; when the idx is -1 afterwards the current-chain pointer moves
    from the third chain to the second, as the comment in the code has it,
    but from the second chain, as from the first, to NULL ([rewound]);
    otherwise it stays. *)
Theorem step_back_moves_position :
  forall (pr pr' : blkid_probe) (c : chain_ix) (rc : Z),
    cur_chain pr = Some c ->
    chains_wf pr ->
    blkid_probe_step_back pr = (rc, pr') ->
    rc = 0
    /\ buffers pr' = []
    /\ idx (get_chain pr' c) = stepped (idx (get_chain pr c))
    /\ (forall j, j <> c -> get_chain pr' j = get_chain pr j)
    /\ values pr' = values pr
    /\ cur_chain pr' = (if stepped (idx (get_chain pr c)) =? -1
                        then rewound c else Some c).
Proof.
  intros pr pr' c rc Hcur Hwf.
  unfold blkid_probe_step_back. rewrite Hcur, reset_buffer_empties.
  set (pr1 := set_buffers [] pr).
  assert (Hg1 : forall j, get_chain pr1 j = get_chain pr j) by by destruct pr.
  rewrite Hg1.
  set (pr2 := if idx (get_chain pr c) >=? 0
              then upd_chain c (fun ch => chain_set_idx (idx ch - 1) ch) pr1
              else pr1).
  assert (Hidx : idx (get_chain pr2 c) = stepped (idx (get_chain pr c))).
  { unfold pr2, stepped. destruct (idx (get_chain pr c) >=? 0).
    - rewrite get_upd_chain_same, Hg1. reflexivity.
    - by rewrite Hg1. }
  assert (Hdrv : drv_id (driver (get_chain pr2 c)) = ix_pos c).
  { unfold pr2. destruct (idx (get_chain pr c) >=? 0).
    - rewrite get_upd_chain_same, Hg1. apply Hwf.
    - rewrite Hg1. apply Hwf. }
  assert (Hoth : forall j, j <> c -> get_chain pr2 j = get_chain pr j).
  { intros j Hj. unfold pr2. destruct (idx (get_chain pr c) >=? 0).
    - by rewrite get_upd_chain_other, Hg1.
    - apply Hg1. }
  assert (Hbuf : buffers pr2 = []).
  { unfold pr2. destruct (idx (get_chain pr c) >=? 0); by destruct pr. }
  assert (Hval : values pr2 = values pr).
  { unfold pr2. destruct (idx (get_chain pr c) >=? 0); by destruct pr. }
  assert (Hcur2 : cur_chain pr2 = Some c).
  { unfold pr2. destruct (idx (get_chain pr c) >=? 0); by destruct pr. }
  assert (Hset : forall v j, get_chain (set_cur_chain v pr2) j = get_chain pr2 j)
    by by destruct pr2.
  rewrite Hidx, Hdrv.
  destruct (stepped (idx (get_chain pr c)) =? -1) eqn:E.
  - destruct c; cbn; intros [= <- <-];
      rewrite ?Hset, ?Hidx; repeat split; auto;
      try (intros; rewrite Hset; auto);
      try (by destruct pr2).
  - intros [= <- <-]. repeat split; auto.
Qed.

(** *** Magic matcher *)

(** The patterns of a list, visited in order from a prober state, all fail
    to match without an error; the last component is the prober after the
    last of them. *)
Inductive misses : blkid_probe -> list blkid_idmag -> blkid_probe -> Prop :=
| misses_nil pr : misses pr [] pr
| misses_cons pr mag pr1 rest pr2 :
    visit pr mag = Miss pr1 ->
    misses pr1 rest pr2 ->
    misses pr (mag :: rest) pr2.

(** What the matcher reports for one pattern, read off the buffer request:
    a hit needs a buffer whose bytes at [sboff & 0x3ff] equal the magic; a
    missing buffer is an error when errno is set and a miss otherwise. *)
Lemma visit_spec (pr : blkid_probe) (mag : blkid_idmag) :
  match visit pr mag with
  | Hit o pr' =>
      o = u64 (slot_off mag + slot_idx mag)
      /\ exists buf e,
           blkid_probe_get_buffer pr (slot_off mag) 1024
           = Returned (Some buf, e, pr')
           /\ memcmp_eq (magic mag) (drop (Z.to_nat (slot_idx mag)) buf)
                        (len mag) = true
  | Miss pr' =>
      blkid_probe_get_buffer pr (slot_off mag) 1024 = Returned (None, 0, pr')
      \/ exists buf e,
           blkid_probe_get_buffer pr (slot_off mag) 1024
           = Returned (Some buf, e, pr')
           /\ memcmp_eq (magic mag) (drop (Z.to_nat (slot_idx mag)) buf)
                        (len mag) = false
  | Err e pr' =>
      e <> 0
      /\ blkid_probe_get_buffer pr (slot_off mag) 1024
         = Returned (None, e, pr')
  | Crash => blkid_probe_get_buffer pr (slot_off mag) 1024 = Aborted
  end.
Proof.
  unfold visit.
  destruct (blkid_probe_get_buffer pr (slot_off mag) 1024)
    as [| [[[buf|] e] pr']]; [done| |].
  - destruct (memcmp_eq _ _ _) eqn:E.
    + split; [done|]. by exists buf, e.
    + right. by exists buf, e.
  - destruct (e =? 0) eqn:E; cbn [negb].
    + apply Z.eqb_eq in E. subst. by left.
    + apply Z.eqb_neq in E. done.
Qed.

(** For offsets that are not negative and do not wrap, the effective offset
    of a pattern is the byte [kboff * 1024 + sboff] of the probing area. *)
Lemma effective_off_plain (mag : blkid_idmag) :
  0 <= kboff mag -> 0 <= sboff mag ->
  kboff mag * 1024 + sboff mag < 2 ^ 64 ->
  u64 (slot_off mag + slot_idx mag) = kboff mag * 1024 + sboff mag.
Proof.
  intros Hk Hs Hlt. unfold slot_off, slot_idx, u64.
  rewrite Z.shiftl_mul_pow2, Z.shiftr_div_pow2 by lia.
  change 1023 with (Z.ones 10). rewrite Z.land_ones by lia.
  change (2 ^ 10) with 1024.
  pose proof (Z.div_mod (sboff mag) 1024 ltac:(lia)).
  pose proof (Z.mod_pos_bound (sboff mag) 1024 ltac:(lia)).
  pose proof (Z.div_pos (sboff mag) 1024 Hs ltac:(lia)).
  rewrite (Z.mod_small ((kboff mag + sboff mag / 1024) * 1024)) by lia.
  rewrite Z.mod_small; lia.
Qed.

(** The loop stops at the first pattern that does not miss. *)
Lemma idmag_scan_spec (mags : list blkid_idmag) :
  forall (pr : blkid_probe) (dflt : Z),
  exists pre post prk,
    mags = pre ++ post
    /\ misses pr pre prk
    /\ match post with
       | [] => idmag_scan pr mags dflt = Returned (dflt, None, prk)
       | mag :: _ =>
           match visit prk mag with
           | Hit o pr' =>
               idmag_scan pr mags dflt
               = Returned (BLKID_PROBE_OK, Some (o, mag), pr')
           | Err e pr' =>
               idmag_scan pr mags dflt = Returned (- e, None, pr')
           | Crash => idmag_scan pr mags dflt = Aborted
           | Miss _ => False
           end
       end.
Proof.
  induction mags as [| mag rest IH]; intros pr dflt.
  - exists [], [], pr. repeat split. constructor.
  - cbn [idmag_scan]. destruct (visit pr mag) as [o pr' | pr' | e pr' |] eqn:V.
    + exists [], (mag :: rest), pr. split; [done|]. split; [constructor|].
      by rewrite V.
    + destruct (IH pr' dflt) as (pre & post & prk & -> & Hm & Hres).
      exists (mag :: pre), post, prk. split; [done|].
      split; [by econstructor|]. exact Hres.
    + exists [], (mag :: rest), pr. split; [done|]. split; [constructor|].
      by rewrite V.
    + exists [], (mag :: rest), pr. split; [done|]. split; [constructor|].
      by rewrite V.
Qed.


(** *** Safeprobe and fullprobe *)

(** A call recorded by the gathering loop was made on the chain that was
    current, enabled and rewound to position -1, and its code is what the
    driver member returned. *)
Definition call_ok (m : member) (c : call) : Prop :=
  c_member c = m
  /\ cur_chain (c_arg c) = Some (c_chain c)
  /\ enabled (get_chain (c_arg c) (c_chain c)) = true
  /\ idx (get_chain (c_arg c) (c_chain c)) = -1
  /\ c_rc c = (call_member m (driver (get_chain (c_arg c) (c_chain c)))
                           (c_arg c) (c_chain c)).1.

(** The aggregate of a walk: the first negative code if there is one, else
    0 when some chain answered 0 and 1 when none did. *)
Definition verdict (tr : list call) : Z :=
  match List.find (fun c => c_rc c <? 0) tr with
  | Some c => c_rc c
  | None => if existsb (fun c => c_rc c =? 0) tr then 0 else 1
  end.

(** Nothing follows a call that returned a negative code. *)
Fixpoint stops_at_negative (tr : list call) : Prop :=
  match tr with
  | [] => True
  | c :: rest => (c_rc c < 0 -> rest = []) /\ stops_at_negative rest
  end.

(** The chains of [todo] that are enabled in [pr], in array order. *)
Definition enabled_in (pr : blkid_probe) (todo : list chain_ix)
  : list chain_ix :=
  filter (fun i => enabled (get_chain pr i) = true) todo.

Lemma enabled_in_ext (p q : blkid_probe) (todo : list chain_ix) :
  (forall j, enabled (get_chain p j) = enabled (get_chain q j)) ->
  enabled_in p todo = enabled_in q todo.
Proof.
  intros H. unfold enabled_in. induction todo as [| i todo IH]; [done|].
  rewrite !filter_cons, IH, (H i). done.
Qed.

Lemma enabled_upd_chain (pr : blkid_probe) (i j : chain_ix) f :
  (forall ch, enabled (f ch) = enabled ch) ->
  enabled (get_chain (upd_chain i f pr) j) = enabled (get_chain pr j).
Proof.
  intros Hf. destruct (decide (j = i)) as [-> | Hne].
  - by rewrite get_upd_chain_same.
  - by rewrite get_upd_chain_other.
Qed.

Lemma get_chain_set_cur_chain (pr : blkid_probe) v j :
  get_chain (set_cur_chain v pr) j = get_chain pr j.
Proof. by destruct pr. Qed.

Lemma cur_chain_upd_chain (pr : blkid_probe) i f :
  cur_chain (upd_chain i f pr) = cur_chain pr.
Proof. by destruct pr. Qed.

Lemma start_get_chain (pr : blkid_probe) j :
  get_chain (blkid_probe_start pr) j = get_chain pr j.
Proof. by destruct pr. Qed.

Lemma end_cur_chain (pr : blkid_probe) : cur_chain (blkid_probe_end pr) = None.
Proof. by destruct pr. Qed.

Section Gather.

Variable m : member.

(** The driver member leaves the [enabled] flags of the chains alone. *)
Hypothesis member_keeps_enabled :
  forall drv p i j,
    enabled (get_chain (call_member m drv p i).2 j) = enabled (get_chain p j).

Lemma gather_loop_spec (todo : list chain_ix) :
  forall (count rc : Z) (pr : blkid_probe) (tr : list call)
         (count' rc' : Z) (pr' : blkid_probe) (tr' : list call),
    0 <= count -> 0 <= rc ->
    gather_loop m todo count rc pr tr = (count', rc', pr', tr') ->
    exists new,
      tr' = tr ++ new
      /\ Forall (call_ok m) new
      /\ stops_at_negative new
      /\ map c_chain new `prefix_of` enabled_in pr todo
      /\ (0 <= rc' -> map c_chain new = enabled_in pr todo)
      /\ (if rc' <? 0 then rc' else if count' =? 0 then 1 else 0)
         = match List.find (fun c => c_rc c <? 0) new with
           | Some c => c_rc c
           | None =>
               if (count =? 0) && negb (existsb (fun c => c_rc c =? 0) new)
               then 1 else 0
           end.
Proof.
  induction todo as [| i todo IH];
    intros count rc pr tr count' rc' pr' tr' Hcount Hrc.
  - cbn [gather_loop]. intros [= <- <- <- <-]. exists [].
    rewrite app_nil_r. repeat split; try done.
    cbn. replace (rc <? 0) with false by (symmetry; apply Z.ltb_ge; lia).
    by rewrite andb_true_r.
  - cbn [gather_loop].
    set (pr1 := upd_chain i (chain_set_binary false) (set_cur_chain (Some i) pr)).
    assert (Hen1 : forall j, enabled (get_chain pr1 j) = enabled (get_chain pr j)).
    { intros j. unfold pr1.
      rewrite enabled_upd_chain by done. by rewrite get_chain_set_cur_chain. }
    assert (Hcur1 : cur_chain pr1 = Some i).
    { unfold pr1. rewrite cur_chain_upd_chain. by destruct pr. }
    destruct (enabled (get_chain pr1 i)) eqn:Eon; cbn [negb].
    + set (pr2 := upd_chain i blkid_probe_chain_reset_position pr1).
      destruct (call_member m (driver (get_chain pr2 i)) pr2 i)
        as [rc1 pr3] eqn:Ecall.
      set (pr4 := upd_chain i blkid_probe_chain_reset_position pr3).
      assert (Hen2 : forall j, enabled (get_chain pr2 j) = enabled (get_chain pr j)).
      { intros j. unfold pr2. rewrite enabled_upd_chain by done. apply Hen1. }
      assert (Hen4 : forall j, enabled (get_chain pr4 j) = enabled (get_chain pr j)).
      { intros j. unfold pr4. rewrite enabled_upd_chain by done.
        pose proof (member_keeps_enabled (driver (get_chain pr2 i)) pr2 i j) as H.
        rewrite Ecall in H. cbn [snd] in H. by rewrite H. }
      assert (Hok : call_ok m (mkCall m i pr2 rc1)).
      { unfold call_ok. cbn [c_member c_chain c_arg c_rc].
        split; [done|]. split.
        { unfold pr2. by rewrite cur_chain_upd_chain. }
        split; [by rewrite Hen2, <- Hen1|]. split.
        { unfold pr2. by rewrite get_upd_chain_same. }
        by rewrite Ecall. }
      assert (Hfilter : enabled_in pr (i :: todo) = i :: enabled_in pr todo).
      { unfold enabled_in. rewrite filter_cons.
        rewrite <- (Hen1 i), Eon. by rewrite decide_True. }
      destruct (rc1 <? 0) eqn:Eneg.
      * intros [= <- <- <- <-]. exists [mkCall m i pr2 rc1].
        split; [done|]. split; [by constructor|].
        split; [by cbn|]. split.
        { rewrite Hfilter. cbn [map c_chain].
          apply prefix_cons, prefix_nil. }
        split.
        { intros Hge. apply Z.ltb_lt in Eneg. lia. }
        cbn [List.find c_rc]. by rewrite Eneg.
      * intros Hloop. apply Z.ltb_ge in Eneg.
        assert (Hcount1 : 0 <= (if rc1 =? 0 then count + 1 else count))
          by (destruct (rc1 =? 0); lia).
        destruct (IH _ _ _ _ _ _ _ _ Hcount1 Eneg Hloop)
          as (new & -> & Hall & Hstop & Hpre & Heq & Hver).
        exists (mkCall m i pr2 rc1 :: new).
        split; [by rewrite <- app_assoc|].
        split; [by constructor|]. split.
        { cbn [stops_at_negative c_rc]. split; [lia | done]. }
        rewrite Hfilter, <- (enabled_in_ext pr4 pr todo Hen4).
        split; [cbn [map c_chain]; by apply prefix_cons|].
        split; [intros Hge; cbn [map c_chain]; by rewrite Heq|].
        rewrite Hver. cbn [List.find existsb c_rc].
        replace (rc1 <? 0) with false by (symmetry; apply Z.ltb_ge; lia).
        destruct (List.find _ new); [done|].
        destruct (rc1 =? 0) eqn:E0; cbn [orb negb].
        -- replace (count + 1 =? 0) with false
             by (symmetry; apply Z.eqb_neq; lia).
           by rewrite andb_false_r.
        -- done.
    + intros Hloop.
      destruct (IH _ _ _ _ _ _ _ _ Hcount Hrc Hloop)
        as (new & -> & Hall & Hstop & Hpre & Heq & Hver).
      exists new. split; [done|]. split; [done|]. split; [done|].
      assert (Hfilter : enabled_in pr (i :: todo) = enabled_in pr todo).
      { unfold enabled_in. rewrite filter_cons.
        rewrite <- (Hen1 i), Eon. by rewrite decide_False. }
      rewrite Hfilter, <- (enabled_in_ext pr1 pr todo Hen1). done.
Qed.

Lemma stops_at_negative_split (tr : list call) :
  stops_at_negative tr ->
  forall t1 c t2, tr = t1 ++ c :: t2 -> c_rc c < 0 -> t2 = [].
Proof.
  induction tr as [| x tr IH]; intros Hs t1 c t2 E Hneg.
  - by destruct t1.
  - destruct Hs as [Hx Hs]. destruct t1 as [| y t1]; cbn in E.
    + injection E as -> ->. by apply Hx.
    + injection E as -> ->. by eapply IH.
Qed.

(** The walk of [blkid_do_safeprobe] and [blkid_do_fullprobe] on a device
    that is scanned. *)
Lemma gather_spec (pr pr' : blkid_probe) (rc : Z) (tr : list call) :
  fl_noscan_dev (pflags pr) = false ->
  gather m pr = (rc, pr', tr) ->
  Forall (call_ok m) tr
  /\ (forall t1 c t2, tr = t1 ++ c :: t2 -> c_rc c < 0 -> t2 = [])
  /\ map c_chain tr `prefix_of` enabled_in pr all_chains
  /\ (0 <= rc -> map c_chain tr = enabled_in pr all_chains)
  /\ rc = verdict tr
  /\ cur_chain pr' = None.
Proof.
  intros Hscan. unfold gather. rewrite Hscan.
  destruct (gather_loop m all_chains 0 0 (blkid_probe_start pr) [])
    as [[[count' rc'] pr1] tr1] eqn:Eloop.
  destruct (gather_loop_spec all_chains _ _ _ _ _ _ _ _
              (Z.le_refl 0) (Z.le_refl 0) Eloop)
    as (new & E & Hall & Hstop & Hpre & Heq & Hver).
  cbn [app] in E. subst tr1.
  assert (Hst : forall j, enabled (get_chain (blkid_probe_start pr) j)
                          = enabled (get_chain pr j))
    by (intros j; by rewrite start_get_chain).
  rewrite (enabled_in_ext _ pr all_chains Hst) in Hpre, Heq.
  assert (Hfinal : (if rc' <? 0 then rc' else if count' =? 0 then 1 else 0)
                   = verdict new).
  { rewrite Hver. unfold verdict. destruct (List.find _ new); [done|].
    cbn [Z.eqb andb]. by destruct (existsb _ new). }
  intros Hres.
  assert (rc = verdict new /\ pr' = blkid_probe_end pr1 /\ tr = new)
    as (-> & -> & ->).
  { rewrite <- Hfinal. destruct (rc' <? 0); by injection Hres as <- <- <-. }
  split; [done|]. split; [by apply stops_at_negative_split|].
  split; [done|]. split.
  - intros Hge. apply Heq. rewrite <- Hfinal in Hge.
    destruct (rc' <? 0) eqn:E; [|by apply Z.ltb_ge in E].
    apply Z.ltb_lt in E. lia.
  - split; [done | apply end_cur_chain].
Qed.

End Gather.



(** *** One match per call *)

Definition next_chain (c : chain_ix) : option chain_ix :=
  match c with
  | BLKID_CHAIN_SUBLKS => Some BLKID_CHAIN_TOPLGY
  | BLKID_CHAIN_TOPLGY => Some BLKID_CHAIN_PARTS
  | BLKID_CHAIN_PARTS => None
  end.

Lemma leaves_chain_iff (rc : Z) (chn : blkid_chain) :
  leaves_chain rc chn = true
  <-> rc = 1 /\ (enabled chn = false
                 \/ idx chn + 1 = to_int (nidinfos (driver chn))
                 \/ idx chn = -1).
Proof.
  unfold leaves_chain.
  rewrite andb_true_iff, !orb_true_iff, negb_true_iff, !Z.eqb_eq.
  split.
  - intros [H1 [[H | H] | H]]; auto.
  - intros [H1 [H | [H | H]]]; auto.
Qed.

(** The selection at the head of a turn, for a prober with a current chain:
    the loop leaves the chain exactly under [leaves_chain], goes to the next
    chain of the array when there is one, and ends the probe when there is
    none. *)
Lemma select_chain_spec (rc : Z) (pr : blkid_probe) (c : chain_ix) :
  chains_wf pr ->
  cur_chain pr = Some c ->
  select_chain rc pr
  = if leaves_chain rc (get_chain pr c)
    then match next_chain c with
         | Some n => Selected n (set_cur_chain (Some n) pr)
         | None => Finished (blkid_probe_end pr)
         end
    else Selected c pr.
Proof.
  intros Hwf Hcur. unfold select_chain. rewrite Hcur, (Hwf c).
  destruct (leaves_chain rc (get_chain pr c)); [|done].
  by destruct c.
Qed.

(** **** The iteration, in the words of its description

    The definitions below do not follow the loop of [blkid_do_probe]; they
    say which calls of the [probe] member a run has to make, from the
    position of the prober the run starts at. *)

(** The answer and the prober a recorded call gave. *)
Definition call_result (c : call) : Z * blkid_probe :=
  driver_probe (driver (get_chain (c_arg c) (c_chain c))) (c_arg c) (c_chain c).

(** A chain that is not probed again: it is disabled, or at its last
    descriptor, or at -1. *)
Definition exhausted (chn : blkid_chain) : bool :=
  negb (enabled chn)
  || (idx chn + 1 =? to_int (nidinfos (driver chn)))
  || (idx chn =? -1).

(** The chains behind [c] in the array. *)
Definition chains_after (c : chain_ix) : list chain_ix :=
  match c with
  | BLKID_CHAIN_SUBLKS => [BLKID_CHAIN_TOPLGY; BLKID_CHAIN_PARTS]
  | BLKID_CHAIN_TOPLGY => [BLKID_CHAIN_PARTS]
  | BLKID_CHAIN_PARTS => []
  end.

(** The chains a run may still probe, in order: every chain when there is
    no current chain; the current chain and the chains behind it; the chains
    behind it only, when the current chain is exhausted. *)
Definition candidates (p : blkid_probe) : list chain_ix :=
  match cur_chain p with
  | None => all_chains
  | Some c =>
      if exhausted (get_chain p c) then chains_after c
      else c :: chains_after c
  end.

(** The prober a run sets out from: a run without current chain starts the
    probe. *)
Definition origin (p : blkid_probe) : blkid_probe :=
  match cur_chain p with
  | None => blkid_probe_start p
  | Some _ => p
  end.

(** Chain [j] made the current chain, in string mode; and the same along a
    list of chains. *)
Definition enter (j : chain_ix) (p : blkid_probe) : blkid_probe :=
  upd_chain j (chain_set_binary false) (set_cur_chain (Some j) p).

Definition walk (js : list chain_ix) (p : blkid_probe) : blkid_probe :=
  fold_left (fun q j => enter j q) js p.

Definition disabled_in (p : blkid_probe) (j : chain_ix) : Prop :=
  enabled (get_chain p j) = false.

(** The calls [tr], the result [rc] and the final prober [pr'] of a run over
    the candidates [js] from the prober [q]:
    - without a call, every candidate is disabled, the result is 1 and the
      probe is ended behind the last candidate;
    - the first call is the [probe] member of the first enabled candidate,
      on the prober that has passed the disabled candidates in front of it;
      an answer other than 1 is the result and ends the run with the prober
      of that call; after the answer 1 the run goes on from the prober of
      that call, with its candidates. *)
Fixpoint one_match_run (js : list chain_ix) (q : blkid_probe)
    (tr : list call) (rc : Z) (pr' : blkid_probe) {struct tr} : Prop :=
  match tr with
  | [] =>
      rc = 1
      /\ Forall (disabled_in q) js
      /\ pr' = blkid_probe_end (walk js q)
  | c :: tr' =>
      (exists skipped rest,
          js = skipped ++ c_chain c :: rest
          /\ Forall (disabled_in q) skipped
          /\ c_arg c = walk (skipped ++ [c_chain c]) q)
      /\ enabled (get_chain q (c_chain c)) = true
      /\ c_member c = MProbe
      /\ c_rc c = (call_result c).1
      /\ if c_rc c =? 1
         then one_match_run (candidates (call_result c).2)
                (origin (call_result c).2) tr' rc pr'
         else tr' = [] /\ rc = c_rc c /\ pr' = (call_result c).2
  end.

Definition one_match (p : blkid_probe) (tr : list call) (rc : Z)
    (pr' : blkid_probe) : Prop :=
  one_match_run (candidates p) (origin p) tr rc pr'.

(** What the loop needs of the [probe] member.  It keeps the drivers'
    ids. *)
Definition probe_keeps_ids : Prop :=
  forall (p : blkid_probe) (i : chain_ix),
    chains_wf p ->
    chains_wf (driver_probe (driver (get_chain p i)) p i).2.

(** The descriptors of a chain behind its position. *)
Definition remaining (chn : blkid_chain) : Z :=
  to_int (nidinfos (driver chn)) - 1 - idx chn.

(** For the loop to return, the member keeps the current chain, and when it
    answers 1 it leaves its chain exhausted or nearer to its last
    descriptor. *)
Definition probe_progress : Prop :=
  forall (p : blkid_probe) (i : chain_ix),
    chains_wf p ->
    cur_chain p = Some i ->
    cur_chain (driver_probe (driver (get_chain p i)) p i).2 = Some i
    /\ ((driver_probe (driver (get_chain p i)) p i).1 = 1 ->
        exhausted (get_chain (driver_probe (driver (get_chain p i)) p i).2 i)
        = true
        \/ 0 <= remaining (get_chain (driver_probe (driver (get_chain p i)) p i).2 i)
             < remaining (get_chain p i)).

(** **** The loop against the description *)

(** The turn behind the selection. *)
Definition turn_rest
    (loop : Z -> blkid_probe -> list call -> option (Z * blkid_probe * list call))
    (rc : Z) (i : chain_ix) (pr1 : blkid_probe) (tr : list call)
  : option (Z * blkid_probe * list call) :=
  let pr2 := upd_chain i (chain_set_binary false) pr1 in
  let chn := get_chain pr2 i in
  if negb (enabled chn) then
    if rc =? 1 then loop rc pr2 tr else Some (rc, pr2, tr)
  else
    let '(rc', pr3) := driver_probe (driver chn) pr2 i in
    let tr' := tr ++ [mkCall MProbe i pr2 rc'] in
    if rc' =? 1 then loop rc' pr3 tr' else Some (rc', pr3, tr').

Lemma do_probe_loop_unfold (fuel : nat) (rc : Z) (pr : blkid_probe) tr :
  do_probe_loop (S fuel) rc pr tr
  = match select_chain rc pr with
    | Finished pr' => Some (1, pr', tr)
    | Selected i pr1 => turn_rest (do_probe_loop fuel) rc i pr1 tr
    end.
Proof. reflexivity. Qed.

(** The turn on chain [j] of the prober [q] that has entered it. *)
Definition probe_turn
    (loop : blkid_probe -> list call -> option (Z * blkid_probe * list call))
    (j : chain_ix) (q : blkid_probe) (tr : list call)
  : option (Z * blkid_probe * list call) :=
  if enabled (get_chain q j) then
    let c := mkCall MProbe j q (driver_probe (driver (get_chain q j)) q j).1 in
    if c_rc c =? 1 then loop (call_result c).2 (tr ++ [c])
    else Some (c_rc c, (call_result c).2, tr ++ [c])
  else loop q tr.

Lemma wf_upd_binary (pr : blkid_probe) (i : chain_ix) b :
  chains_wf pr -> chains_wf (upd_chain i (chain_set_binary b) pr).
Proof.
  intros Hwf j. destruct (decide (j = i)) as [-> | Hne].
  - rewrite get_upd_chain_same. apply Hwf.
  - rewrite get_upd_chain_other by done. apply Hwf.
Qed.

Lemma wf_set_cur_chain (pr : blkid_probe) v :
  chains_wf pr -> chains_wf (set_cur_chain v pr).
Proof. intros Hwf j. rewrite get_chain_set_cur_chain. apply Hwf. Qed.

Lemma cur_chain_set_cur_chain (pr : blkid_probe) v :
  cur_chain (set_cur_chain v pr) = v.
Proof. by destruct pr. Qed.

Lemma set_cur_chain_same (pr : blkid_probe) v :
  cur_chain pr = v -> set_cur_chain v pr = pr.
Proof. destruct pr. cbn. by intros <-. Qed.

Lemma wf_origin (p : blkid_probe) : chains_wf p -> chains_wf (origin p).
Proof.
  intros Hwf. unfold origin. destruct (cur_chain p); [done|].
  intros j. rewrite start_get_chain. apply Hwf.
Qed.

Lemma get_chain_origin (p : blkid_probe) j :
  get_chain (origin p) j = get_chain p j.
Proof.
  unfold origin. destruct (cur_chain p); [done|]. apply start_get_chain.
Qed.

Lemma wf_enter (j : chain_ix) (q : blkid_probe) :
  chains_wf q -> chains_wf (enter j q).
Proof. intros Hwf. by apply wf_upd_binary, wf_set_cur_chain. Qed.

Lemma cur_chain_enter (j : chain_ix) (q : blkid_probe) :
  cur_chain (enter j q) = Some j.
Proof.
  unfold enter. by rewrite cur_chain_upd_chain, cur_chain_set_cur_chain.
Qed.

Lemma get_chain_enter (j i : chain_ix) (q : blkid_probe) :
  get_chain (enter j q) i
  = if decide (i = j) then chain_set_binary false (get_chain q j)
    else get_chain q i.
Proof.
  unfold enter. destruct (decide (i = j)) as [-> | Hne].
  - by rewrite get_upd_chain_same, get_chain_set_cur_chain.
  - by rewrite get_upd_chain_other, get_chain_set_cur_chain.
Qed.

Lemma enabled_enter (j i : chain_ix) (q : blkid_probe) :
  enabled (get_chain (enter j q) i) = enabled (get_chain q i).
Proof. rewrite get_chain_enter. by destruct (decide (i = j)) as [-> |]. Qed.

Lemma exhausted_enter (j : chain_ix) (q : blkid_probe) :
  exhausted (get_chain (enter j q) j) = exhausted (get_chain q j).
Proof. rewrite get_chain_enter. by destruct (decide (j = j)). Qed.

Lemma remaining_enter (j : chain_ix) (q : blkid_probe) :
  remaining (get_chain (enter j q) j) = remaining (get_chain q j).
Proof. rewrite get_chain_enter. by destruct (decide (j = j)). Qed.

Lemma disabled_enter (j : chain_ix) (q : blkid_probe) (l : list chain_ix) :
  Forall (disabled_in (enter j q)) l <-> Forall (disabled_in q) l.
Proof.
  apply Forall_iff. intros i. unfold disabled_in. by rewrite enabled_enter.
Qed.

Lemma disabled_is_exhausted (chn : blkid_chain) :
  enabled chn = false -> exhausted chn = true.
Proof. unfold exhausted. by intros ->. Qed.

Lemma leaves_chain_exhausted (chn : blkid_chain) :
  leaves_chain 1 chn = exhausted chn.
Proof. reflexivity. Qed.

(** The candidates of a prober that has entered a disabled chain are the
    chains behind it. *)
Lemma candidates_enter_disabled (j : chain_ix) (q : blkid_probe) :
  enabled (get_chain q j) = false ->
  candidates (enter j q) = chains_after j /\ origin (enter j q) = enter j q.
Proof.
  intros Hoff. unfold candidates, origin. rewrite cur_chain_enter.
  rewrite exhausted_enter, disabled_is_exhausted; done.
Qed.

(** One turn of the loop, by the candidates of the prober at its head. *)
Lemma do_probe_loop_turn (fuel : nat) (p : blkid_probe) tr :
  chains_wf p ->
  do_probe_loop (S fuel) 1 p tr
  = match candidates p with
    | [] => Some (1, blkid_probe_end (origin p), tr)
    | j :: _ => probe_turn (do_probe_loop fuel 1) j (enter j (origin p)) tr
    end.
Proof.
  intros Hwf. rewrite do_probe_loop_unfold.
  assert (Hturn : forall j p1 q,
    upd_chain j (chain_set_binary false) p1 = enter j q ->
    turn_rest (do_probe_loop fuel) 1 j p1 tr
    = probe_turn (do_probe_loop fuel 1) j (enter j q) tr).
  { intros j p1 q Heq. unfold turn_rest, probe_turn, call_result. rewrite Heq.
    cbn [c_rc c_arg c_chain].
    destruct (enabled (get_chain (enter j q) j)); cbn [negb]; [|done].
    destruct (driver_probe _ _ _) as [rc' pr3]. cbn [fst snd].
    destruct (rc' =? 1) eqn:E1; [|done].
    apply Z.eqb_eq in E1. by subst rc'. }
  unfold candidates, origin.
  destruct (cur_chain p) as [c|] eqn:Hcur.
  - rewrite (select_chain_spec 1 p c Hwf Hcur), leaves_chain_exhausted.
    destruct (exhausted (get_chain p c)).
    + destruct c; cbn [next_chain chains_after]; [| |done];
        by apply Hturn.
    + apply Hturn. unfold enter. by rewrite set_cur_chain_same.
  - unfold select_chain. rewrite Hcur. by apply Hturn.
Qed.

Lemma candidates_tail (p : blkid_probe) (j : chain_ix) js :
  candidates p = j :: js -> js = chains_after j.
Proof.
  unfold candidates. destruct (cur_chain p) as [c|].
  - destruct (exhausted (get_chain p c)); [|by intros [= <- <-]].
    destruct c; cbn; [by intros [= <- <-] | by intros [= <- <-] | done].
  - by intros [= <- <-].
Qed.

(** A run from behind a disabled chain is a run from in front of it. *)
Lemma one_match_run_skip (j : chain_ix) js (q : blkid_probe) tr rc pr' :
  enabled (get_chain q j) = false ->
  one_match_run js (enter j q) tr rc pr' ->
  one_match_run (j :: js) q tr rc pr'.
Proof.
  intros Hoff. destruct tr as [| c tr']; cbn [one_match_run].
  - intros (-> & Hall & ->). split; [done|]. split; [|done].
    constructor; [done|]. by apply (disabled_enter j).
  - intros ((skipped & rest & -> & Hall & Harg) & Hon & Hrest).
    split.
    + exists (j :: skipped), rest. split; [done|]. split; [|done].
      constructor; [done|]. by apply (disabled_enter j).
    + split; [|done]. by rewrite enabled_enter in Hon.
Qed.

Section Turns.

Hypothesis keeps_ids : probe_keeps_ids.

(** Whatever a run of the loop returns is a one-match run from the prober
    at its head. *)
Lemma do_probe_loop_one_match (fuel : nat) :
  forall (p : blkid_probe) tr rc pr' tr',
    chains_wf p ->
    do_probe_loop fuel 1 p tr = Some (rc, pr', tr') ->
    exists new, tr' = tr ++ new /\ one_match p new rc pr'.
Proof.
  induction fuel as [| fuel IH]; intros p tr rc pr' tr' Hwf Hrun; [done|].
  rewrite do_probe_loop_turn in Hrun by done. unfold one_match.
  destruct (candidates p) as [| j js] eqn:Hcand.
  - injection Hrun as <- <- <-. exists []. by rewrite app_nil_r.
  - pose proof (candidates_tail p j js Hcand) as Hjs.
    assert (Hwfq : chains_wf (enter j (origin p)))
      by by apply wf_enter, wf_origin.
    unfold probe_turn in Hrun.
    destruct (enabled (get_chain (enter j (origin p)) j)) eqn:Hon.
    + set (c := mkCall MProbe j (enter j (origin p))
                  (driver_probe (driver (get_chain (enter j (origin p)) j))
                     (enter j (origin p)) j).1) in *.
      assert (Hhead : forall tl,
        (if c_rc c =? 1
         then one_match_run (candidates (call_result c).2)
                (origin (call_result c).2) tl rc pr'
         else tl = [] /\ rc = c_rc c /\ pr' = (call_result c).2) ->
        one_match_run (j :: js) (origin p) (c :: tl) rc pr').
      { intros tl Htl. cbn [one_match_run]. split.
        - exists [], js. by repeat split.
        - split; [by rewrite enabled_enter in Hon|]. by repeat split. }
      destruct (c_rc c =? 1) eqn:E1.
      * destruct (IH _ _ _ _ _ (keeps_ids _ j Hwfq) Hrun)
          as (new & -> & Hnew).
        exists (c :: new). rewrite <- app_assoc. split; [done|].
        apply Hhead. exact Hnew.
      * injection Hrun as <- <- <-. exists [c]. split; [done|].
        by apply Hhead.
    + rewrite enabled_enter in Hon.
      destruct (IH _ _ _ _ _ Hwfq Hrun) as (new & -> & Hnew).
      exists new. split; [done|]. apply one_match_run_skip; [done|].
      unfold one_match in Hnew.
      destruct (candidates_enter_disabled j (origin p) Hon) as [Hc Ho].
      by rewrite Hc, Ho, <- Hjs in Hnew.
Qed.

Hypothesis progress : probe_progress.

(** The loop returns from the prober [p], however much fuel it is given
    above some amount. *)
Definition halts (p : blkid_probe) : Prop :=
  exists n rc pr' new,
    forall fuel tr, (n <= fuel)%nat ->
      do_probe_loop fuel 1 p tr = Some (rc, pr', tr ++ new).

Definition chain_halts (c : chain_ix) : Prop :=
  forall p, chains_wf p -> cur_chain p = Some c -> halts p.

Definition leave_halts (c : chain_ix) : Prop :=
  forall p, chains_wf p -> cur_chain p = Some c ->
            exhausted (get_chain p c) = true -> halts p.

(** A turn on chain [j] returns when the loop returns from the probers the
    turn hands on. *)
Lemma probe_turn_halts (p : blkid_probe) (j : chain_ix) js :
  chains_wf p ->
  candidates p = j :: js ->
  (enabled (get_chain (origin p) j) = false -> halts (enter j (origin p))) ->
  (forall p3, chains_wf p3 ->
              cur_chain p3 = Some j ->
              (exhausted (get_chain p3 j) = true
               \/ 0 <= remaining (get_chain p3 j)
                    < remaining (get_chain (origin p) j)) ->
              halts p3) ->
  halts p.
Proof.
  intros Hwf Hcand Hoff Hone.
  assert (Hwfq : chains_wf (enter j (origin p)))
    by by apply wf_enter, wf_origin.
  assert (Hstep : forall n rc pr' new,
    (forall fuel tr, (n <= fuel)%nat ->
       probe_turn (do_probe_loop fuel 1) j (enter j (origin p)) tr
       = Some (rc, pr', tr ++ new)) ->
    halts p).
  { intros n rc pr' new Hn. exists (S n), rc, pr', new.
    intros [| fuel] tr Hfuel; [lia|].
    rewrite do_probe_loop_turn, Hcand by done. apply Hn. lia. }
  unfold probe_turn in Hstep.
  destruct (enabled (get_chain (enter j (origin p)) j)) eqn:Hon.
  - set (c := mkCall MProbe j (enter j (origin p))
                (driver_probe (driver (get_chain (enter j (origin p)) j))
                   (enter j (origin p)) j).1) in *.
    destruct (c_rc c =? 1) eqn:E1.
    + apply Z.eqb_eq in E1.
      destruct (progress (enter j (origin p)) j Hwfq (cur_chain_enter _ _))
        as [Hcur Hprog].
      specialize (Hprog E1). rewrite remaining_enter in Hprog.
      destruct (Hone (call_result c).2 (keeps_ids _ j Hwfq) Hcur Hprog)
        as (n & rc & pr' & new & Hn).
      apply (Hstep n rc pr' (c :: new)). intros fuel tr Hfuel.
      rewrite (Hn fuel (tr ++ [c]) Hfuel). by rewrite <- app_assoc.
    + apply (Hstep 0%nat (c_rc c) (call_result c).2 [c]). done.
  - rewrite enabled_enter in Hon.
    destruct (Hoff Hon) as (n & rc & pr' & new & Hn).
    apply (Hstep n rc pr' new). intros fuel tr Hfuel. by apply Hn.
Qed.

(** On a chain, the turns that stay are bounded by the descriptors
    remaining. *)
Lemma chain_halts_of_leave (c : chain_ix) : leave_halts c -> chain_halts c.
Proof.
  intros Hleave.
  assert (Hm : forall (m : nat) p,
    remaining (get_chain p c) <= Z.of_nat m ->
    chains_wf p -> cur_chain p = Some c -> halts p).
  { induction m as [| m IH]; intros p Hrem Hwf Hcur.
    - destruct (exhausted (get_chain p c)) eqn:Hex; [by apply Hleave|].
      assert (Hcand : candidates p = c :: chains_after c)
        by (unfold candidates; by rewrite Hcur, Hex).
      assert (Ho : origin p = p) by (unfold origin; by rewrite Hcur).
      apply (probe_turn_halts p c _ Hwf Hcand); rewrite Ho.
      + intros Hoff. by rewrite (disabled_is_exhausted _ Hoff) in Hex.
      + intros p3 Hwf3 Hcur3 [Hex3 | Hlt]; [by apply Hleave | lia].
    - destruct (exhausted (get_chain p c)) eqn:Hex; [by apply Hleave|].
      assert (Hcand : candidates p = c :: chains_after c)
        by (unfold candidates; by rewrite Hcur, Hex).
      assert (Ho : origin p = p) by (unfold origin; by rewrite Hcur).
      apply (probe_turn_halts p c _ Hwf Hcand); rewrite Ho.
      + intros Hoff. by rewrite (disabled_is_exhausted _ Hoff) in Hex.
      + intros p3 Hwf3 Hcur3 [Hex3 | Hlt]; [by apply Hleave|].
        apply IH; [lia | done | done]. }
  intros p Hwf Hcur.
  apply (Hm (Z.to_nat (remaining (get_chain p c)))); [lia | done | done].
Qed.

Lemma leave_halts_last : leave_halts BLKID_CHAIN_PARTS.
Proof.
  intros p Hwf Hcur Hex. exists 1%nat, 1, (blkid_probe_end (origin p)), [].
  intros [| fuel] tr Hfuel; [lia|].
  rewrite do_probe_loop_turn by done. unfold candidates.
  rewrite Hcur, Hex. cbn [chains_after]. by rewrite app_nil_r.
Qed.

(** Into chain [n] from in front of it. *)
Lemma enter_halts (p : blkid_probe) (n : chain_ix) :
  chain_halts n ->
  chains_wf p ->
  candidates p = n :: chains_after n ->
  halts p.
Proof.
  intros Hn Hwf Hcand.
  assert (Hwfq : chains_wf (enter n (origin p)))
    by by apply wf_enter, wf_origin.
  apply (probe_turn_halts p n _ Hwf Hcand).
  - intros _. apply Hn; [done | apply cur_chain_enter].
  - intros p3 Hwf3 Hcur3 _. by apply Hn.
Qed.

Lemma leave_halts_next (c n : chain_ix) :
  next_chain c = Some n -> chain_halts n -> leave_halts c.
Proof.
  intros Hnext Hn p Hwf Hcur Hex. apply (enter_halts p n Hn Hwf).
  unfold candidates. rewrite Hcur, Hex.
  destruct c; cbn in Hnext |- *; by inversion Hnext.
Qed.

Lemma chain_halts_any (c : chain_ix) : chain_halts c.
Proof.
  assert (H3 := chain_halts_of_leave _ leave_halts_last).
  assert (H2 := chain_halts_of_leave _
                  (leave_halts_next BLKID_CHAIN_TOPLGY _ eq_refl H3)).
  assert (H1 := chain_halts_of_leave _
                  (leave_halts_next BLKID_CHAIN_SUBLKS _ eq_refl H2)).
  by destruct c.
Qed.

Lemma do_probe_loop_halts (p : blkid_probe) : chains_wf p -> halts p.
Proof.
  intros Hwf. destruct (cur_chain p) as [c|] eqn:Hcur.
  - by apply (chain_halts_any c).
  - apply (enter_halts p BLKID_CHAIN_SUBLKS (chain_halts_any _) Hwf).
    unfold candidates. by rewrite Hcur.
Qed.

End Turns.

(** What [one_match] says of the first call: from a current chain that is
    not exhausted it is made on that chain, and from one that is exhausted
    no call of the run is made on it before the run has left it. *)
Lemma one_match_stays (p : blkid_probe) (c : chain_ix) tr rc pr' :
  cur_chain p = Some c ->
  exhausted (get_chain p c) = false ->
  one_match p tr rc pr' ->
  exists a rest,
    tr = a :: rest
    /\ c_chain a = c
    /\ c_arg a = upd_chain c (chain_set_binary false) p.
Proof.
  intros Hcur Hex. unfold one_match, candidates, origin. rewrite Hcur, Hex.
  assert (Hon : enabled (get_chain p c) = true).
  { unfold exhausted in Hex. by destruct (enabled (get_chain p c)). }
  destruct tr as [| a rest]; cbn [one_match_run].
  - intros (_ & Hall & _). apply Forall_cons in Hall as [Hoff _].
    unfold disabled_in in Hoff. congruence.
  - intros ((skipped & tl & Hjs & Hall & Harg) & _). exists a, rest.
    split; [done|]. destruct skipped as [| s skipped].
    + injection Hjs as Hjs _. split; [done|].
      rewrite Harg, <- Hjs. cbn. unfold enter.
      by rewrite set_cur_chain_same.
    + injection Hjs as <- _. apply Forall_cons in Hall as [Hoff _].
      unfold disabled_in in Hoff. congruence.
Qed.

Lemma one_match_advances (p : blkid_probe) (c : chain_ix) tr rc pr' :
  cur_chain p = Some c ->
  exhausted (get_chain p c) = true ->
  one_match p tr rc pr' ->
  match tr with
  | [] => rc = 1 /\ Forall (disabled_in p) (chains_after c)
          /\ pr' = blkid_probe_end (walk (chains_after c) p)
  | a :: _ => c_chain a ∈ chains_after c
  end.
Proof.
  intros Hcur Hex. unfold one_match, candidates, origin. rewrite Hcur, Hex.
  destruct tr as [| a rest]; cbn [one_match_run]; [done|].
  intros ((skipped & tl & -> & _) & _).
  apply elem_of_app. right. by left.
Qed.

(** C1.  On a device that is scanned, with every chain's driver carrying
    its position as id and a [probe] member that keeps the ids:
    - whatever [blkid_do_probe] returns is a one-match run from the
      prober's position ([one_match]): each call in its log is the [probe]
      member of the first enabled chain among the candidates -- the current
      chain unless the last result was 1 and the chain is disabled, or its
      idx + 1 equals its descriptor count, or its idx is -1, and then the
      chains behind it in the array --, made on the prober that has passed
      the disabled chains in front in string mode; the call goes on behind
      a probe that answers 1, from the prober that probe left; it returns
      the answer (0 or negative) of the last probe called, with that
      probe's prober; and it returns 1 only when every candidate left is
      disabled, after the probe has been ended behind the last chain;
    - when the member also keeps the current chain and, answering 1,
      leaves its chain exhausted or nearer to its last descriptor, the call
      returns, and returns the same however much fuel it is given above
      some amount. *)
Theorem do_probe_one_match_per_call :
  forall (pr : blkid_probe),
    fl_noscan_dev (pflags pr) = false ->
    chains_wf pr ->
    probe_keeps_ids ->
    (forall fuel rc pr' tr,
        blkid_do_probe fuel pr = Some (rc, pr', tr) ->
        one_match pr tr rc pr')
    /\ (probe_progress ->
        exists n rc pr' tr,
          one_match pr tr rc pr'
          /\ forall fuel, (n <= fuel)%nat ->
               blkid_do_probe fuel pr = Some (rc, pr', tr)).
Proof.
  intros pr Hscan Hwf Hids.
  assert (Hpart : forall fuel rc pr' tr,
    blkid_do_probe fuel pr = Some (rc, pr', tr) -> one_match pr tr rc pr').
  { intros fuel rc pr' tr. unfold blkid_do_probe. rewrite Hscan. intros Hrun.
    by destruct (do_probe_loop_one_match Hids fuel pr [] rc pr' tr Hwf Hrun)
      as (new & -> & Hnew). }
  split; [exact Hpart|]. intros Hprog.
  destruct (do_probe_loop_halts Hids Hprog pr Hwf) as (n & rc & pr' & new & Hn).
  assert (Hrun : forall fuel, (n <= fuel)%nat ->
            blkid_do_probe fuel pr = Some (rc, pr', new)).
  { intros fuel Hfuel. unfold blkid_do_probe. rewrite Hscan.
    by rewrite (Hn fuel [] Hfuel). }
  exists n, rc, pr', new. split; [|exact Hrun].
  apply (Hpart n). by apply Hrun.
Qed.

(** *** Value list *)

(** The (chain, name) pair a value is listed under. *)
Definition value_key (v : blkid_prval) : option chain_ix * string :=
  (v_chain v, v_name v).

Definition keys (pr : blkid_probe) : list (option chain_ix * string) :=
  map value_key (values pr).

Lemma upd_last_value_snoc (pr : blkid_probe) vs v f :
  upd_last_value f (set_values (vs ++ [v]) pr) = set_values (vs ++ [f v]) pr.
Proof.
  unfold upd_last_value.
  replace (values (set_values (vs ++ [v]) pr)) with (vs ++ [v])
    by by destruct pr.
  rewrite reverse_snoc, reverse_involutive. by destruct pr.
Qed.

Lemma free_last_value_snoc (pr : blkid_probe) vs v :
  free_last_value (set_values (vs ++ [v]) pr) = set_values vs pr.
Proof.
  unfold free_last_value.
  replace (values (set_values (vs ++ [v]) pr)) with (vs ++ [v])
    by by destruct pr.
  rewrite reverse_snoc, reverse_involutive. by destruct pr.
Qed.

Lemma values_set_values (pr : blkid_probe) vs : values (set_values vs pr) = vs.
Proof. by destruct pr. Qed.

Lemma cur_chain_set_values (pr : blkid_probe) vs :
  cur_chain (set_values vs pr) = cur_chain pr.
Proof. by destruct pr. Qed.

Lemma set_value_values (pr : blkid_probe) name data n :
  blkid_probe_set_value pr (Some name) data n
  = (0, set_values
          (values pr
           ++ [mkVal name (take (Z.to_nat n) data ++ [0]) n (cur_chain pr)])
          pr).
Proof.
  unfold blkid_probe_set_value, blkid_probe_assign_value.
  by rewrite upd_last_value_snoc.
Qed.

(** What [blkid_probe_sprintf_value] leaves on the list: one more value when
    the formatted string is not empty, else the list as it was. *)
Lemma sprintf_value_values (pr : blkid_probe) name formatted :
  values (blkid_probe_sprintf_value pr (Some name) formatted).2
  = match formatted with
    | inr (b :: str) =>
        values pr ++ [mkVal name ((b :: str) ++ [0])
                            (Z.of_nat (length (b :: str)) + 1) (cur_chain pr)]
    | inr [] => values pr
    | inl e =>
        if e <=? 0 then values pr
        else values pr ++ [mkVal name [0] (e + 1) (cur_chain pr)]
    end.
Proof.
  unfold blkid_probe_sprintf_value, blkid_probe_vsprintf_value,
    blkid_probe_assign_value.
  destruct formatted as [e | [| b str]].
  - destruct (e <=? 0); cbn [snd].
    + by rewrite free_last_value_snoc, values_set_values.
    + by rewrite upd_last_value_snoc, values_set_values.
  - change (Z.of_nat (length (@nil Z)) <=? 0) with true. cbn [snd].
    by rewrite free_last_value_snoc, values_set_values.
  - replace (Z.of_nat (length (b :: str)) <=? 0) with false
      by (symmetry; apply Z.leb_gt; rewrite length_cons; lia).
    cbn [snd]. by rewrite upd_last_value_snoc, values_set_values.
Qed.

(** None of the three operations looks at the values already listed: each
    only appends, and tags what it appends with the current chain. *)
Definition appends_for_current_chain (pr pr' : blkid_probe) : Prop :=
  exists added,
    values pr' = values pr ++ added
    /\ Forall (fun v => v_chain v = cur_chain pr) added.

Lemma set_value_appends (pr : blkid_probe) name data n :
  appends_for_current_chain pr (blkid_probe_set_value pr name data n).2.
Proof.
  destruct name as [name|].
  - rewrite set_value_values. cbn [snd]. eexists. split.
    + apply values_set_values.
    + by repeat constructor.
  - exists []. split; [by rewrite app_nil_r | constructor].
Qed.

Lemma sprintf_value_appends (pr : blkid_probe) name formatted :
  appends_for_current_chain pr
    (blkid_probe_sprintf_value pr name formatted).2.
Proof.
  destruct name as [name|].
  - unfold appends_for_current_chain. rewrite sprintf_value_values.
    destruct formatted as [e | [| b str]].
    + destruct (e <=? 0).
      * exists []. split; [by rewrite app_nil_r | constructor].
      * eexists. split; [reflexivity | by repeat constructor].
    + exists []. split; [by rewrite app_nil_r | constructor].
    + eexists. split; [reflexivity | by repeat constructor].
  - exists []. split; [by rewrite app_nil_r | constructor].
Qed.

Lemma appends_trans (pr1 pr2 pr3 : blkid_probe) :
  cur_chain pr2 = cur_chain pr1 ->
  appends_for_current_chain pr1 pr2 ->
  appends_for_current_chain pr2 pr3 ->
  appends_for_current_chain pr1 pr3.
Proof.
  intros Hc (a1 & E1 & F1) (a2 & E2 & F2). exists (a1 ++ a2). split.
  - by rewrite E2, E1, app_assoc.
  - apply Forall_app. split; [done|]. by rewrite <- Hc.
Qed.

Lemma appends_refl (pr : blkid_probe) : appends_for_current_chain pr pr.
Proof. exists []. split; [by rewrite app_nil_r | constructor]. Qed.

Lemma set_value_cur_chain (pr : blkid_probe) name data n :
  cur_chain (blkid_probe_set_value pr name data n).2 = cur_chain pr.
Proof.
  destruct name as [name|]; [|done].
  rewrite set_value_values. apply cur_chain_set_values.
Qed.

Lemma set_magic_appends (pr : blkid_probe) offset n magic :
  appends_for_current_chain pr (blkid_probe_set_magic pr offset n magic).2.
Proof.
  unfold blkid_probe_set_magic.
  destruct (cur_chain pr) as [c|] eqn:Hc; [|apply appends_refl].
  destruct magic as [bytes|]; [|apply appends_refl].
  destruct ((n =? 0) || binary (get_chain pr c)); [apply appends_refl|].
  assert (Hboth : forall tag tag_off,
    appends_for_current_chain pr
      (let '(rc, pr1) := blkid_probe_set_value pr (Some tag) bytes n in
       if rc =? 0
       then blkid_probe_sprintf_value pr1 (Some tag_off) (format_llu offset)
       else (rc, pr1)).2).
  { intros tag tag_off.
    pose proof (set_value_appends pr (Some tag) bytes n) as H1.
    pose proof (set_value_cur_chain pr (Some tag) bytes n) as H2.
    destruct (blkid_probe_set_value pr (Some tag) bytes n) as [rc pr1].
    cbn [snd] in *. destruct (rc =? 0); [|done].
    eapply appends_trans; [exact H2 | exact H1 |].
    apply sprintf_value_appends. }
  repeat match goal with
         | |- context [if ?b then _ else _] => destruct b
         end; try apply appends_refl; apply Hboth.
Qed.


(** *** Devices flagged no-scan *)

Lemma reset_probe_values (pr : blkid_probe) :
  values (blkid_probe_reset_buffer (blkid_reset_probe pr)) = [].
Proof.
  rewrite reset_buffer_empties. unfold blkid_reset_probe.
  rewrite reset_values_empties. by destruct pr.
Qed.

Lemma noscan_do_probe (pr : blkid_probe) (fuel : nat) :
  fl_noscan_dev (pflags pr) = true ->
  blkid_do_probe fuel pr = Some (1, pr, []).
Proof. unfold blkid_do_probe. by intros ->. Qed.

Lemma noscan_gather (m : member) (pr : blkid_probe) :
  fl_noscan_dev (pflags pr) = true -> gather m pr = (1, pr, []).
Proof. unfold gather. by intros ->. Qed.

(** C10.  A prober whose device was found to be a private LVM block device
    when it was assigned carries the no-scan flag and an empty value list;
    each of the three probing entry points then returns 1 with the prober
    untouched (the value list still empty) and without a single call into a
    chain driver. *)
Theorem noscan_device_is_not_probed :
  forall (pr0 pr : blkid_probe) (new_fd o sz st_mode st_rdev st_size : Z),
    sys_fstat new_fd = Some (st_mode, st_rdev, st_size) ->
    S_ISBLK st_mode = true ->
    sysfs_devno_is_lvm_private st_rdev = true ->
    blkid_probe_set_device pr0 new_fd o sz = (0, pr) ->
    fl_noscan_dev (pflags pr) = true
    /\ values pr = []
    /\ (forall fuel, blkid_do_probe fuel pr = Some (1, pr, []))
    /\ blkid_do_safeprobe pr = (1, pr, [])
    /\ blkid_do_fullprobe pr = (1, pr, []).
Proof.
  intros pr0 pr new_fd o sz st_mode st_rdev st_size Hstat Hblk Hlvm Hset.
  assert (Hfl : fl_noscan_dev (pflags pr) = true /\ values pr = []).
  { revert Hset. unfold blkid_probe_set_device.
    rewrite Hstat, Hblk, Hlvm. cbn [negb andb orb].
    pose proof (reset_probe_values pr0) as Hv.
    destruct (blkdev_get_size new_fd) as [devsiz|]; [|done].
    match goal with
    | |- context [if ?b then (-1, _) else _] => destruct b; [done|]
    end.
    match goal with
    | |- context [if ?b then set_pflags _ _ else _] => destruct b
    end; intros [= <-]; cbn; done. }
  destruct Hfl as [Hfl Hval]. repeat split; auto.
  - intros fuel. by apply noscan_do_probe.
  - by apply noscan_gather.
  - by apply noscan_gather.
Qed.

End Engine.

(** ** The properties at sample objects *)

Definition image_pr : blkid_probe :=
  Eval vm_compute in
    (blkid_probe_set_device sample_fstat sample_blkdev_size sample_lvm_private
       sample_cdrom sample_wholedisk fresh_pr 3 0 0).2.

Definition lvm_pr : blkid_probe :=
  Eval vm_compute in
    (blkid_probe_set_device sample_fstat sample_blkdev_size sample_lvm_private
       sample_cdrom sample_wholedisk fresh_pr 4 0 0).2.

(** The image prober with both extra chains enabled. *)
Definition all_enabled_pr : blkid_probe :=
  upd_chain BLKID_CHAIN_TOPLGY (chain_set_enabled true)
    (upd_chain BLKID_CHAIN_PARTS (chain_set_enabled true) image_pr).

Abbreviation get_buffer :=
  (blkid_probe_get_buffer 4096 sample_mmap sample_llseek sample_read 40).
Abbreviation get_idmag :=
  (blkid_probe_get_idmag 4096 sample_mmap sample_llseek sample_read 40).

(** The ext2 magic of the image is found at byte 1080. *)
Example ext2_magic_found :
  exists pr',
    get_idmag image_pr (Some ext2_idinfo)
    = Returned (BLKID_PROBE_OK, Some (1080, ext2_magic), pr').
Proof. eexists. vm_compute. reflexivity. Qed.

(** The swap magic is not on the image. *)
Example swap_magic_not_found :
  exists pr',
    get_idmag image_pr (Some swap_idinfo)
    = Returned (BLKID_PROBE_NONE, None, pr').
Proof. eexists. vm_compute. reflexivity. Qed.


(** C4, counterexample: a request of length zero on the 8 KiB image fails
    with errno 0, which is not EINVAL. *)
Lemma get_buffer_zero_length_errno :
  size image_pr <> 0
  /\ get_buffer image_pr 0 0 = Returned (None, 0, image_pr)
  /\ 0 <> EINVAL.
Proof.
  split; [discriminate|]. split; [vm_compute; reflexivity | discriminate].
Qed.

(** C4 at a request that ends behind the 8 KiB window. *)
Lemma get_buffer_outside_area_witness :
  size image_pr <> 0
  /\ u64 (off image_pr + size image_pr) < u64 (u64 (off image_pr + 8192) + 1024)
  /\ get_buffer image_pr 8192 1024 = Returned (None, 0, image_pr).
Proof.
  assert (H1 : size image_pr <> 0) by discriminate.
  assert (H2 : u64 (off image_pr + size image_pr)
               < u64 (u64 (off image_pr + 8192) + 1024)) by reflexivity.
  split; [exact H1|]. split; [exact H2|].
  exact (get_buffer_outside_area 4096 sample_mmap sample_llseek sample_read 40
           image_pr 8192 1024 H1 (or_intror H2)).
Defined.

(** Probers in the middle of a run: the superblocks chain has matched its
    descriptor 0 and registered a wipe area of 8 KiB; a partition table was
    then found by the third chain, at its descriptor 0. *)
Definition after_sublks_pr : blkid_probe :=
  set_values [mkVal "TYPE" [76; 86; 77; 0] 4 (Some BLKID_CHAIN_SUBLKS)]
    (set_wipe 0 8192 (Some BLKID_CHAIN_SUBLKS)
       (set_cur_chain (Some BLKID_CHAIN_SUBLKS)
          (upd_chain BLKID_CHAIN_SUBLKS (chain_set_idx 0) all_enabled_pr))).

Definition after_toplgy_pr : blkid_probe :=
  set_cur_chain (Some BLKID_CHAIN_TOPLGY)
    (upd_chain BLKID_CHAIN_TOPLGY (chain_set_idx 0) after_sublks_pr).

Definition after_parts_pr : blkid_probe :=
  set_values (values after_sublks_pr
              ++ [mkVal "PTTYPE" [100; 111; 115; 0] 4 (Some BLKID_CHAIN_PARTS)])
    (set_cur_chain (Some BLKID_CHAIN_PARTS)
       (upd_chain BLKID_CHAIN_PARTS (chain_set_idx 0) after_sublks_pr)).

(** C5, where the code departs from its comment: a step back from
    descriptor 0 of the second chain leaves the current-chain pointer at
    NULL, not one chain back at the first chain, where the comment in
    [blkid_probe_step_back] and the step from the third chain have it. *)
Lemma step_back_from_second_chain :
  cur_chain after_toplgy_pr = Some BLKID_CHAIN_TOPLGY
  /\ idx (get_chain after_toplgy_pr BLKID_CHAIN_TOPLGY) = 0
  /\ cur_chain (blkid_probe_step_back after_toplgy_pr).2 = None
  /\ cur_chain (blkid_probe_step_back after_toplgy_pr).2
     <> Some BLKID_CHAIN_SUBLKS.
Proof.
  split; [reflexivity|]. split; [reflexivity|].
  split; [vm_compute; reflexivity|].
  intros H. vm_compute in H. discriminate H.
Qed.

(** [step_back_moves_position] at a step back from descriptor 0 of the
    third chain: the pointer goes one chain back. *)
Lemma step_back_moves_position_witness :
  cur_chain after_parts_pr = Some BLKID_CHAIN_PARTS
  /\ chains_wf after_parts_pr
  /\ buffers (blkid_probe_step_back after_parts_pr).2 = []
  /\ idx (get_chain (blkid_probe_step_back after_parts_pr).2 BLKID_CHAIN_PARTS)
     = -1
  /\ cur_chain (blkid_probe_step_back after_parts_pr).2
     = Some BLKID_CHAIN_TOPLGY.
Proof.
  assert (H1 : cur_chain after_parts_pr = Some BLKID_CHAIN_PARTS)
    by reflexivity.
  assert (H2 : chains_wf after_parts_pr) by (intros []; reflexivity).
  split; [exact H1|]. split; [exact H2|].
  pose proof (step_back_moves_position after_parts_pr
                (blkid_probe_step_back after_parts_pr).2
                BLKID_CHAIN_PARTS 0 H1 H2 eq_refl)
    as (_ & Hb & Hi & _ & _ & Hc).
  split; [exact Hb|]. split; [exact Hi | exact Hc].
Defined.

(** What the NULL pointer costs: the next [blkid_do_probe] starts the probe
    anew, so the wipe area recorded before the step back is gone when the
    first chain is probed. *)
Example step_back_from_second_chain_restarts :
  wipe_size after_toplgy_pr = 8192
  /\ wipe_size (blkid_probe_step_back after_toplgy_pr).2 = 8192
  /\ exists rc pr' c tr,
       blkid_do_probe sample_driver_probe 4
         (blkid_probe_step_back after_toplgy_pr).2
       = Some (rc, pr', c :: tr)
       /\ c_chain c = BLKID_CHAIN_SUBLKS
       /\ wipe_size (c_arg c) = 0.
Proof.
  split; [reflexivity|]. split; [reflexivity|].
  do 4 eexists. split; [vm_compute; reflexivity|].
  split; reflexivity.
Qed.

(** C6 at the partition table found inside the wipe area of the
    superblocks chain, and at a match behind it. *)
Lemma use_wiper_discards_earlier_match_witness :
  wipe_chain after_parts_pr = Some BLKID_CHAIN_SUBLKS
  /\ wholly_within after_parts_pr 510 2
  /\ values (blkid_probe_use_wiper after_parts_pr 510 2)
     = [mkVal "PTTYPE" [100; 111; 115; 0] 4 (Some BLKID_CHAIN_PARTS)]
  /\ wipe_chain (blkid_probe_use_wiper after_parts_pr 510 2) = None
  /\ ~ wholly_within after_parts_pr 8190 4
  /\ blkid_probe_use_wiper after_parts_pr 8190 4 = after_parts_pr.
Proof.
  assert (Hc : wipe_chain after_parts_pr = Some BLKID_CHAIN_SUBLKS)
    by reflexivity.
  assert (Hin : wholly_within after_parts_pr 510 2)
    by (repeat split; discriminate).
  assert (Hout : ~ wholly_within after_parts_pr 8190 4)
    by (intros (_ & _ & H); exact (H eq_refl)).
  destruct (use_wiper_discards_earlier_match after_parts_pr 510 2 _ Hc)
    as [Hdo _].
  destruct (use_wiper_discards_earlier_match after_parts_pr 8190 4 _ Hc)
    as [_ Hkeep].
  split; [exact Hc|]. split; [exact Hin|].
  rewrite (Hdo Hin). split; [reflexivity|]. split; [reflexivity|].
  split; [exact Hout | exact (Hkeep Hout)].
Defined.






(** A [probe] member that answers once for every descriptor: 0 at the
    second descriptor of the superblocks chain, 1 at any other, and 1 with
    the position back at -1 behind the last. *)
Definition stepping_driver_probe (drv : blkid_chaindrv) (p : blkid_probe)
    (i : chain_ix) : Z * blkid_probe :=
  let n := idx (get_chain p i) + 1 in
  if n <? to_int (nidinfos drv)
  then (if (drv_id drv =? 0) && (n =? 1) then 0 else 1,
        upd_chain i (chain_set_idx n) p)
  else (1, upd_chain i (chain_set_idx (-1)) p).

Lemma stepping_driver_probe_keeps_ids : probe_keeps_ids stepping_driver_probe.
Proof.
  intros p i Hwf j. unfold stepping_driver_probe.
  destruct (idx (get_chain p i) + 1 <? _); cbn [snd];
    (destruct (decide (j = i)) as [-> | Hne];
     [rewrite get_upd_chain_same | rewrite get_upd_chain_other by done];
     apply Hwf).
Defined.

Lemma stepping_driver_probe_progress : probe_progress stepping_driver_probe.
Proof.
  intros p i Hwf Hcur. unfold stepping_driver_probe.
  destruct (idx (get_chain p i) + 1 <? to_int (nidinfos (driver (get_chain p i))))
    eqn:Elt; cbn [fst snd]; rewrite cur_chain_upd_chain, get_upd_chain_same;
    (split; [done|]); intros _.
  - right. unfold remaining. cbn [driver idx chain_set_idx]. lia.
  - left. unfold exhausted. cbn [idx chain_set_idx].
    by rewrite orb_true_r.
Defined.

(** C1 at the image prober and the stepping driver: the call probes the
    superblocks chain, stays on it behind the answer 1 of its first
    descriptor, and returns the answer 0 of the second. *)
Lemma do_probe_one_match_per_call_witness :
  fl_noscan_dev (pflags image_pr) = false
  /\ chains_wf image_pr
  /\ probe_keeps_ids stepping_driver_probe
  /\ probe_progress stepping_driver_probe
  /\ (exists pr' tr,
        blkid_do_probe stepping_driver_probe 4 image_pr = Some (0, pr', tr)
        /\ map c_chain tr = [BLKID_CHAIN_SUBLKS; BLKID_CHAIN_SUBLKS]
        /\ map c_rc tr = [1; 0]
        /\ one_match stepping_driver_probe image_pr tr 0 pr')
  /\ exists n rc pr' tr,
       one_match stepping_driver_probe image_pr tr rc pr'
       /\ forall fuel, (n <= fuel)%nat ->
            blkid_do_probe stepping_driver_probe fuel image_pr
            = Some (rc, pr', tr).
Proof.
  assert (H1 : fl_noscan_dev (pflags image_pr) = false) by reflexivity.
  assert (H2 : chains_wf image_pr) by (intros []; reflexivity).
  destruct (do_probe_one_match_per_call stepping_driver_probe image_pr
              H1 H2 stepping_driver_probe_keeps_ids) as [Hpart Hret].
  split; [exact H1|]. split; [exact H2|].
  split; [exact stepping_driver_probe_keeps_ids|].
  split; [exact stepping_driver_probe_progress|].
  split; [|exact (Hret stepping_driver_probe_progress)].
  do 2 eexists. split; [vm_compute; reflexivity|].
  split; [reflexivity|]. split; [reflexivity|].
  apply (Hpart 4%nat). vm_compute. reflexivity.
Defined.

(** The calls of the usual loop on the image with the stepping driver: the
    match, then done from the exhausted superblocks chain without a call,
    the two chains behind it being disabled. *)
Example do_probe_stepping_twice :
  exists pr1 tr1 pr2,
    blkid_do_probe stepping_driver_probe 4 image_pr = Some (0, pr1, tr1)
    /\ cur_chain pr1 = Some BLKID_CHAIN_SUBLKS
    /\ idx (get_chain pr1 BLKID_CHAIN_SUBLKS) = 1
    /\ blkid_do_probe stepping_driver_probe 4 pr1 = Some (1, pr2, [])
    /\ cur_chain pr2 = None.
Proof.
  do 3 eexists.
  split; [vm_compute; reflexivity|]. split; [reflexivity|].
  split; [reflexivity|].
  split; [vm_compute; reflexivity | reflexivity].
Qed.

(** The two calls of the usual loop on the image: a match, then done. *)
Example do_probe_twice :
  exists pr1 tr1 pr2 tr2,
    blkid_do_probe sample_driver_probe 4 image_pr = Some (0, pr1, tr1)
    /\ map c_chain tr1 = [BLKID_CHAIN_SUBLKS]
    /\ blkid_do_probe sample_driver_probe 4 pr1 = Some (1, pr2, tr2)
    /\ map c_chain tr2 = [BLKID_CHAIN_SUBLKS]
    /\ cur_chain pr2 = None.
Proof.
  do 4 eexists.
  split; [vm_compute; reflexivity|]. split; [reflexivity|].
  split; [vm_compute; reflexivity|]. split; reflexivity.
Qed.


(** C10 at the private LVM device behind descriptor 4. *)
Lemma noscan_device_is_not_probed_witness :
  sample_fstat 4 = Some (S_IFBLK, 64768, 0)
  /\ S_ISBLK S_IFBLK = true
  /\ sample_lvm_private 64768 = true
  /\ values lvm_pr = []
  /\ (forall fuel,
        blkid_do_probe sample_driver_probe fuel lvm_pr = Some (1, lvm_pr, []))
  /\ blkid_do_safeprobe sample_driver_probe sample_driver_safeprobe lvm_pr
     = (1, lvm_pr, [])
  /\ blkid_do_fullprobe sample_driver_probe sample_driver_safeprobe lvm_pr
     = (1, lvm_pr, []).
Proof.
  assert (H1 : sample_fstat 4 = Some (S_IFBLK, 64768, 0)) by reflexivity.
  assert (H2 : S_ISBLK S_IFBLK = true) by reflexivity.
  assert (H3 : sample_lvm_private 64768 = true) by reflexivity.
  assert (H4 : blkid_probe_set_device sample_fstat sample_blkdev_size
                 sample_lvm_private sample_cdrom sample_wholedisk
                 fresh_pr 4 0 0 = (0, lvm_pr)) by (vm_compute; reflexivity).
  destruct (noscan_device_is_not_probed sample_driver_probe
              sample_driver_safeprobe sample_fstat sample_blkdev_size
              sample_lvm_private sample_cdrom sample_wholedisk
              fresh_pr lvm_pr 4 0 0 _ _ _ H1 H2 H3 H4)
    as (_ & Hv & Hp & Hs & Hf).
  repeat split; assumption.
Defined.

End Probe.

(* ===================================================================== *)
(** * libmount/src/tab.c                                                  *)
(* ===================================================================== *)
Module Tab.

(** struct libmnt_fs: the members that the target lookup reads, and the
    flag bits behind the [mnt_fs_is_*] tests, one field per bit. *)
Record libmnt_fs := mkFs {
  fs_source : option string;
  fs_target : option string;
  fs_fstype : option string;
  fl_pseudo : bool;          (* MNT_FS_PSEUDO *)
  fl_net : bool;             (* MNT_FS_NET *)
  fl_swap : bool;            (* MNT_FS_SWAP *)
  fl_kernel : bool           (* MNT_FS_KERNEL: the entry was read from the
                                kernel's mount table *)
}.

(** Modelled from the spec: the flag tests of fs.c, which is not part of
    these sources.  tab.c tells an entry that is a pseudo filesystem
    ([mnt_fs_is_pseudofs]) from one that comes from the kernel
    ([mnt_fs_is_kernel], the test of [is_mountinfo]), and from a swap area. *)
Definition mnt_fs_is_pseudofs (fs : libmnt_fs) : bool := fl_pseudo fs.
Definition mnt_fs_is_kernel (fs : libmnt_fs) : bool := fl_kernel fs.
Definition mnt_fs_is_swaparea (fs : libmnt_fs) : bool := fl_swap fs.

(** Modelled from the spec: [mnt_fs_streq_target] of fs.c, a byte
    comparison of the entry's native target with the path. *)
Definition mnt_fs_streq_target (fs : libmnt_fs) (path : string) : bool :=
  match fs_target fs with
  | Some t => bool_decide (t = path)
  | None => false
  end.

(** Modelled from the spec: the path cache of cache.c, as the
    canonicalization it answers with; [None] is a NULL result. *)
Record libmnt_cache := mkCache {
  mnt_resolve_path : string -> option string;
  mnt_resolve_target : string -> option string
}.

(** struct libmnt_table *)
Record libmnt_table := mkTable {
  ents : list libmnt_fs;
  cache : option libmnt_cache
}.

Definition MNT_ITER_FORWARD : Z := 0.
Definition MNT_ITER_BACKWARD : Z := 1.

(** The entries in the order in which [mnt_table_next_fs] yields them after
    [mnt_reset_iter(&itr, direction)]. *)
Definition entries_in (tb : libmnt_table) (direction : Z) : list libmnt_fs :=
  if direction =? MNT_ITER_FORWARD then ents tb else reverse (ents tb).

(** A [while (mnt_table_next_fs(...) == 0)] loop that returns the first
    entry passing [test]. *)
Fixpoint first_entry (test : libmnt_fs -> bool) (l : list libmnt_fs)
  : option libmnt_fs :=
  match l with
  | [] => None
  | fs :: rest => if test fs then Some fs else first_entry test rest
  end.

(** The test of the third loop, for the canonical path [cn]. *)
Definition canonical_target_is (c : libmnt_cache) (cn : string)
    (fs : libmnt_fs) : bool :=
  match fs_target fs with
  | None => false
  | Some t =>
      if mnt_fs_is_swaparea fs || mnt_fs_is_kernel fs || bool_decide (t = "/"%string)
      then false
      else match mnt_resolve_target c t with
           | Some p => bool_decide (cn = p)
           | None => false
           end
  end.

Definition mnt_table_find_target (tb : option libmnt_table)
    (path : option string) (direction : Z) : option libmnt_fs :=
  match tb, path with
  | Some tb, Some path =>
      if bool_decide (path = EmptyString) then None
      else if negb (direction =? MNT_ITER_FORWARD)
              && negb (direction =? MNT_ITER_BACKWARD) then None
      else
        let l := entries_in tb direction in
        match first_entry (fun fs => mnt_fs_streq_target fs path) l with
        | Some fs => Some fs
        | None =>
            match cache tb with
            | None => None
            | Some c =>
                match mnt_resolve_path c path with
                | None => None
                | Some cn =>
                    match first_entry (fun fs => mnt_fs_streq_target fs cn) l with
                    | Some fs => Some fs
                    | None => first_entry (canonical_target_is c cn) l
                    end
                end
            end
        end
  | _, _ => None
  end.

(** ** The three passes *)

(** [r] is the first entry of [l] with property [P], or NULL when no entry
    has it. *)
Definition first_hit (P : libmnt_fs -> Prop) (l : list libmnt_fs)
    (r : option libmnt_fs) : Prop :=
  match r with
  | Some fs => exists before after,
                 l = before ++ fs :: after /\ P fs /\ Forall (fun x => ~ P x) before
  | None => Forall (fun x => ~ P x) l
  end.

(** Pass 1 and pass 2: the native target equals the path. *)
Definition native_target_is (path : string) (fs : libmnt_fs) : Prop :=
  fs_target fs = Some path.

(** Pass 3: the entry has a target, is neither a swap area nor an entry
    read from the kernel nor mounted on "/", and its target canonicalizes
    to [cn]. *)
Definition canonical_target_hits (c : libmnt_cache) (cn : string)
    (fs : libmnt_fs) : Prop :=
  exists t,
    fs_target fs = Some t
    /\ mnt_fs_is_swaparea fs = false
    /\ mnt_fs_is_kernel fs = false
    /\ t <> "/"%string
    /\ mnt_resolve_target c t = Some cn.

(** The skip test of pass 3 as the specification words it: swap areas,
    pseudo filesystems, and "/". *)
Definition skipped_as_specified (fs : libmnt_fs) : bool :=
  mnt_fs_is_swaparea fs || mnt_fs_is_pseudofs fs
  || bool_decide (fs_target fs = Some "/"%string).

Lemma first_entry_first_hit (test : libmnt_fs -> bool) (P : libmnt_fs -> Prop)
    (l : list libmnt_fs) :
  (forall fs, test fs = true <-> P fs) ->
  first_hit P l (first_entry test l).
Proof.
  intros Hrefl. induction l as [| fs rest IH]; cbn [first_entry].
  - constructor.
  - destruct (test fs) eqn:E.
    + exists [], rest. split; [done|]. split; [by apply Hrefl | constructor].
    + assert (Hn : ~ P fs) by (rewrite <- Hrefl, E; discriminate).
      destruct (first_entry test rest) as [r|]; cbn [first_hit] in *.
      * destruct IH as (before & after & -> & HP & Hb).
        exists (fs :: before), after. split; [done|]. split; [done|].
        by constructor.
      * by constructor.
Qed.

Lemma streq_target_reflects (path : string) (fs : libmnt_fs) :
  mnt_fs_streq_target fs path = true <-> native_target_is path fs.
Proof.
  unfold mnt_fs_streq_target, native_target_is.
  destruct (fs_target fs) as [t|]; [|done].
  rewrite bool_decide_eq_true. split; [by intros -> | by intros [= ->]].
Qed.

Lemma canonical_target_reflects (c : libmnt_cache) (cn : string)
    (fs : libmnt_fs) :
  canonical_target_is c cn fs = true <-> canonical_target_hits c cn fs.
Proof.
  unfold canonical_target_is, canonical_target_hits.
  destruct (fs_target fs) as [t|]; [|split; [done | by intros (? & ? & _)]].
  destruct (mnt_fs_is_swaparea fs), (mnt_fs_is_kernel fs);
    cbn [orb]; try (split; [done | by intros (? & ? & ? & ? & _)]).
  destruct (bool_decide (t = "/"%string)) eqn:Eroot.
  - apply bool_decide_eq_true in Eroot.
    split; [done | intros (t' & [= <-] & _ & _ & Hne & _); done].
  - apply bool_decide_eq_false in Eroot.
    destruct (mnt_resolve_target c t) as [p|] eqn:Ep.
    + rewrite bool_decide_eq_true. split.
      * intros ->. by exists t.
      * intros (t' & [= <-] & _ & _ & _ & Hr). congruence.
    + split; [done | intros (t' & [= <-] & _ & _ & _ & Hr); congruence].
Qed.

(** C9 (as the code has it).  For a path that is not empty and a valid
    direction, the lookup returns the first entry in that direction
    - whose native target equals the path (pass 1); failing that, and only
      with a cache that canonicalizes the path to [cn],
    - whose native target equals [cn] (pass 2); failing that,
    - whose target canonicalizes to [cn], among the entries that have a
      target, are no swap area, were not read from the kernel and are not
      mounted on "/" (pass 3);
    and NULL when no pass has a hit or, after pass 1, there is no cache or
    no canonical path. *)
Theorem find_target_three_passes :
  forall (tb : libmnt_table) (path : string) (direction : Z),
    path <> EmptyString ->
    direction = MNT_ITER_FORWARD \/ direction = MNT_ITER_BACKWARD ->
    let l := entries_in tb direction in
    let r := mnt_table_find_target (Some tb) (Some path) direction in
    (is_Some r /\ first_hit (native_target_is path) l r)
    \/ (Forall (fun fs => ~ native_target_is path fs) l
        /\ ((r = None
             /\ (cache tb = None
                 \/ exists c, cache tb = Some c /\ mnt_resolve_path c path = None))
            \/ exists c cn,
                 cache tb = Some c /\ mnt_resolve_path c path = Some cn
                 /\ ((is_Some r /\ first_hit (native_target_is cn) l r)
                     \/ (Forall (fun fs => ~ native_target_is cn fs) l
                         /\ first_hit (canonical_target_hits c cn) l r)))).
Proof.
  intros tb path direction Hpath Hdir l r. subst r.
  unfold mnt_table_find_target.
  rewrite bool_decide_eq_false_2 by done.
  replace (negb (direction =? MNT_ITER_FORWARD)
           && negb (direction =? MNT_ITER_BACKWARD)) with false
    by (destruct Hdir as [-> | ->]; reflexivity).
  fold l.
  pose proof (first_entry_first_hit _ _ l (streq_target_reflects path)) as H1.
  destruct (first_entry (fun fs => mnt_fs_streq_target fs path) l) as [fs|].
  { left. split; [by eexists | done]. }
  right. split; [exact H1|].
  destruct (cache tb) as [c|]; [|left; split; [done | by left]].
  destruct (mnt_resolve_path c path) as [cn|] eqn:Ecn;
    [|left; split; [done | right; by exists c]].
  right. exists c, cn. split; [done|]. split; [done|].
  pose proof (first_entry_first_hit _ _ l (streq_target_reflects cn)) as H2.
  destruct (first_entry (fun fs => mnt_fs_streq_target fs cn) l) as [fs|].
  { left. split; [by eexists | done]. }
  right. split; [exact H2|].
  apply first_entry_first_hit, canonical_target_reflects.
Qed.

(** ** The lookup at sample tables *)

(** A cache in which /var/run is a link to /run and /mnt/link a link to
    /mnt/real. *)
Definition sample_cache : libmnt_cache :=
  let canon (p : string) : option string :=
    if bool_decide (p = "/var/run"%string) then Some "/run"%string
    else if bool_decide (p = "/mnt/link"%string) then Some "/mnt/real"%string
    else Some p in
  mkCache canon canon.

(** An fstab line [tmpfs /var/run tmpfs]: a pseudo filesystem that was not
    read from the kernel. *)
Definition fstab_tmpfs : libmnt_fs :=
  mkFs (Some "tmpfs"%string) (Some "/var/run"%string) (Some "tmpfs"%string)
       true false false false.

(** A kernel line for an ext4 filesystem mounted on /mnt/link. *)
Definition kernel_ext4 : libmnt_fs :=
  mkFs (Some "/dev/sda1"%string) (Some "/mnt/link"%string)
       (Some "ext4"%string) false false false true.

(** A kernel line [/dev/sda2 /home ext4]. *)
Definition kernel_home : libmnt_fs :=
  mkFs (Some "/dev/sda2"%string) (Some "/home"%string) (Some "ext4"%string)
       false false false true.

Definition sample_table : libmnt_table :=
  mkTable [fstab_tmpfs; kernel_ext4; kernel_home] (Some sample_cache).

(** C9, counterexample: pass 3 returns the tmpfs entry, a pseudo filesystem
    that the specified skip test leaves out; and it does not return the
    kernel's ext4 entry, which that test lets through and whose canonical
    target is the path looked for. *)
Lemma find_target_skips_kernel_entries :
  mnt_table_find_target (Some sample_table) (Some "/run"%string)
    MNT_ITER_FORWARD = Some fstab_tmpfs
  /\ skipped_as_specified fstab_tmpfs = true
  /\ mnt_table_find_target (Some sample_table) (Some "/mnt/real"%string)
       MNT_ITER_FORWARD = None
  /\ skipped_as_specified kernel_ext4 = false
  /\ mnt_resolve_target sample_cache "/mnt/link" = Some "/mnt/real"%string.
Proof. repeat split; reflexivity. Qed.

(** C9 at the lookup of /home, backwards. *)
Lemma find_target_three_passes_witness :
  "/home"%string <> EmptyString
  /\ mnt_table_find_target (Some sample_table) (Some "/home"%string)
       MNT_ITER_BACKWARD = Some kernel_home
  /\ first_hit (native_target_is "/home")
       (entries_in sample_table MNT_ITER_BACKWARD) (Some kernel_home).
Proof.
  assert (H1 : "/home"%string <> EmptyString) by discriminate.
  split; [exact H1|]. split; [reflexivity|].
  destruct (find_target_three_passes sample_table "/home" MNT_ITER_BACKWARD
              H1 (or_intror eq_refl)) as [[_ H] | [H _]].
  - exact H.
  - exfalso. apply Forall_cons in H as [H _]. by apply H.
Defined.

End Tab.
